(** * caddy-windns-cnames: the dynamic_dns app (caddyfile.go)

    A shallow embedding of the Go module: the [App] configuration, its
    provisioning, the discovery of reverse-proxy hosts, the reconciliation
    pass over the domain map, the remote CNAME update over SSH and the
    Caddyfile parser of the [dynamic_dns] global option.

    Conventions.
    - A Go [string] is a [string] (a sequence of bytes).
    - A Go [error] is an [option string]: [None] is [nil], [Some msg] is an
      error whose [Error()] text is [msg].
    - [caddy.Duration] and [time.Duration] are [int64] nanoseconds, here [Z];
      the code only compares and stores them.
    - A Go map is a [gmap]; a nil map is [None], a made map is [Some m].
      [range] over a map visits the entries in an unspecified order: a
      function that ranges over a map takes the visiting order as an
      argument, and theorems quantify over every permutation of the entries.
    - A method with a pointer receiver returns the updated [App] next to its
      Go result. *)

From Stdlib Require Import ZArith Ascii String List Lia SpecFloat.
From stdpp Require Import base option list gmap strings fin_maps.

Local Open Scope string_scope.
Local Open Scope list_scope.
Local Open Scope Z_scope.

(** ** Go's [strings] and [fmt] packages, as far as the module uses them *)

Module GoStrings.

(** [strings.HasPrefix]. *)
Definition HasPrefix (s pfx : string) : bool := String.prefix pfx s.

(** [strings.HasSuffix]:
    [len(s) >= len(suffix) && s[len(s)-len(suffix):] == suffix]. *)
Definition HasSuffix (s suffix : string) : bool :=
  (String.length suffix <=? String.length s)%nat
  && String.eqb
       (substring (String.length s - String.length suffix)
                  (String.length suffix) s)
       suffix.

(** [strings.TrimSuffix]:
    [if HasSuffix(s, suffix) { return s[:len(s)-len(suffix)] }; return s]. *)
Definition TrimSuffix (s suffix : string) : string :=
  if HasSuffix s suffix
  then substring 0 (String.length s - String.length suffix) s
  else s.

(** [strings.Contains(s, substr)] is [Index(s, substr) >= 0]: some position
    of [s] starts an occurrence of [substr]. *)
Fixpoint Contains (s substr : string) : bool :=
  HasPrefix s substr
  || match s with
     | EmptyString => false
     | String _ s' => Contains s' substr
     end.

End GoStrings.

Module Fmt.

(** [fmt.Sprintf] for the verbs the module uses, [%s] and [%v], on operands
    that print as text (strings, byte slices converted to strings, errors).
    [%%] prints a percent sign; a verb without an operand prints Go's
    [%!s(MISSING)] marker.  Every call site passes as many operands as
    verbs, so surplus operands are not modelled. *)
Fixpoint Sprintf (format : string) (args : list string) : string :=
  match format with
  | EmptyString => EmptyString
  | String "%" (String "%" rest) => String "%" (Sprintf rest args)
  | String "%" (String "s" rest) =>
      match args with
      | a :: args' => a +:+ Sprintf rest args'
      | [] => "%!s(MISSING)" +:+ Sprintf rest []
      end
  | String "%" (String "v" rest) =>
      match args with
      | a :: args' => a +:+ Sprintf rest args'
      | [] => "%!v(MISSING)" +:+ Sprintf rest []
      end
  | String c rest => String c (Sprintf rest args)
  end.

(** [fmt.Errorf]: a non-nil error carrying the formatted text. *)
Definition Errorf (format : string) (args : list string) : option string :=
  Some (Sprintf format args).

End Fmt.

(** The double-quote character, used inside command strings. *)
Definition dquote : string := String (ascii_of_nat 34) EmptyString.

(** ** Durations *)

Definition Nanosecond : Z := 1.
Definition Second : Z := 1000000000 * Nanosecond.
Definition Minute : Z := 60 * Second.

(** [const defaultCheckInterval = 30 * time.Minute] *)
Definition defaultCheckInterval : Z := 30 * Minute.

(** A Go [error]: [None] is [nil]. *)
Definition error : Type := option string.

(** ** The routing snapshot read by discovery (package [caddyhttp]) *)

(** A decoded JSON value, as [encoding/json] stores it in an [interface{}]:
    [nil], [bool], [float64], [string], [[]interface{}] or
    [map[string]interface{}]. *)
#[warnings="-register-all"]
Inductive JsonValue : Type :=
| JNull
| JBool (b : bool)
| JNumber (f : SpecFloat.spec_float)
| JString (s : string)
| JArray (l : list JsonValue)
| JObject (m : gmap string JsonValue).

(** [json.RawMessage]: the undecoded bytes of one handler. *)
Definition RawMessage : Type := string.

(** A request matcher of a route, by its dynamic type: [MatchHost] is a
    value of type [caddyhttp.MatchHost], a list of host names, which is what
    the type assertion of the discovery loop accepts; a matcher of any other
    type is told apart by its module name. *)
Inductive RequestMatcher : Type :=
| MatchHost (hosts : list string)
| OtherMatcher (module : string).

(** [caddyhttp.MatcherSet] *)
Definition MatcherSet : Type := list RequestMatcher.

(** [caddyhttp.Route], the two fields the module reads. *)
Record Route : Type := mkRoute {
  MatcherSets : list MatcherSet;
  HandlersRaw : list RawMessage
}.

(** [caddyhttp.Server] *)
Record Server : Type := mkServer {
  Routes : list Route
}.

(** [caddyhttp.App]: [Servers map[string]*Server]. *)
Record HTTPApp : Type := mkHTTPApp {
  Servers : gmap string Server
}.

(** [caddy.Context], as far as the module uses it: the outcome of
    [ctx.App("http")]. *)
Record Context : Type := mkContext {
  ctxHTTPApp : string + HTTPApp
}.

(** The zero [caddy.Context] of a freshly allocated [App]; it holds no
    configuration, so no app can be obtained from it. *)
Definition zeroContext : Context :=
  {| ctxHTTPApp := inl "no configuration" |}.

(** ** The [App] *)

Record DNSServerConfig : Type := mkDNSServer {
  Host : string;
  User : string;
  Password : string
}.

Record App : Type := mkApp {
  DNSServer : DNSServerConfig;
  Domains : option (gmap string (list string));
  CheckInterval : Z;
  TTL : Z;
  AutoCNAME : bool;
  AutoCNAMEZone : string;
  ctx : Context
}.

(** [new(App)]: every field at its zero value. *)
Definition newApp : App :=
  {| DNSServer := {| Host := ""; User := ""; Password := "" |};
     Domains := None;
     CheckInterval := 0;
     TTL := 0;
     AutoCNAME := false;
     AutoCNAMEZone := "";
     ctx := zeroContext |}.

Definition set_DNSServer (v : DNSServerConfig) (a : App) : App :=
  {| DNSServer := v; Domains := Domains a; CheckInterval := CheckInterval a;
     TTL := TTL a; AutoCNAME := AutoCNAME a; AutoCNAMEZone := AutoCNAMEZone a;
     ctx := ctx a |}.
Definition set_Domains (v : option (gmap string (list string))) (a : App) : App :=
  {| DNSServer := DNSServer a; Domains := v; CheckInterval := CheckInterval a;
     TTL := TTL a; AutoCNAME := AutoCNAME a; AutoCNAMEZone := AutoCNAMEZone a;
     ctx := ctx a |}.
Definition set_CheckInterval (v : Z) (a : App) : App :=
  {| DNSServer := DNSServer a; Domains := Domains a; CheckInterval := v;
     TTL := TTL a; AutoCNAME := AutoCNAME a; AutoCNAMEZone := AutoCNAMEZone a;
     ctx := ctx a |}.
Definition set_TTL (v : Z) (a : App) : App :=
  {| DNSServer := DNSServer a; Domains := Domains a; CheckInterval := CheckInterval a;
     TTL := v; AutoCNAME := AutoCNAME a; AutoCNAMEZone := AutoCNAMEZone a;
     ctx := ctx a |}.
Definition set_AutoCNAMEZone (v : string) (a : App) : App :=
  {| DNSServer := DNSServer a; Domains := Domains a; CheckInterval := CheckInterval a;
     TTL := TTL a; AutoCNAME := AutoCNAME a; AutoCNAMEZone := v;
     ctx := ctx a |}.
Definition set_ctx (v : Context) (a : App) : App :=
  {| DNSServer := DNSServer a; Domains := Domains a; CheckInterval := CheckInterval a;
     TTL := TTL a; AutoCNAME := AutoCNAME a; AutoCNAMEZone := AutoCNAMEZone a;
     ctx := v |}.

(** Reading a Go map: a nil map and a missing key both give the zero value,
    here the nil slice. *)
Definition map_get (d : option (gmap string (list string))) (k : string)
  : list string :=
  match d with
  | None => []
  | Some m => default [] (m !! k)
  end.

(** ** [App.Provision] *)

(** [a.ctx = ctx]; an unset (zero) interval becomes the default; an interval
    under one second is refused.  The logger assignment has no counterpart:
    log output is returned by the functions that log. *)
Definition Provision (c : Context) (a : App) : App * error :=
  let a := set_ctx c a in
  let a := if CheckInterval a =? 0
           then set_CheckInterval defaultCheckInterval a
           else a in
  if CheckInterval a <? Second
  then (a, Fmt.Errorf "check interval must be at least 1 second" [])
  else (a, None).

(** ** Discovery: [App.addReverseProxyCNAMEs] *)

(** [encoding/json] is a library: [json.Unmarshal(rawHandler, &handler)]
    with [handler] a [map[string]interface{}] either fails or fills the map
    (a JSON [null] leaves it nil, which reads like the empty map). *)
Class JSON : Type := {
  Unmarshal : RawMessage -> string + gmap string JsonValue
}.

(** [handlerType, ok := handler["handler"].(string); ok && handlerType == "reverse_proxy"] *)
Definition isReverseProxy (handler : gmap string JsonValue) : bool :=
  match handler !! "handler" with
  | Some (JString handlerType) => String.eqb handlerType "reverse_proxy"
  | _ => false
  end.

(** The body of the innermost loop:
    [if a.Domains == nil { a.Domains = make(map[string][]string) }]
    [a.Domains[a.AutoCNAMEZone] = append(a.Domains[a.AutoCNAMEZone],
       strings.TrimSuffix(host, "."+a.AutoCNAMEZone))]. *)
Definition addHost (host : string) (a : App) : App :=
  let domains : gmap string (list string) :=
    match Domains a with
    | None => ∅
    | Some m => m
    end in
  let zone := AutoCNAMEZone a in
  set_Domains
    (Some (<[zone := map_get (Some domains) zone
                       ++ [GoStrings.TrimSuffix host ("." +:+ zone)]]> domains))
    a.

(** [for _, host := range hostMatcher] *)
Definition rangeHosts (hostMatcher : list string) (a : App) : App :=
  fold_left (fun a host => addHost host a) hostMatcher a.

(** [for _, matcher := range matcherSet], with the type assertion
    [matcher.(caddyhttp.MatchHost)]. *)
Definition rangeMatchers (matcherSet : MatcherSet) (a : App) : App :=
  fold_left
    (fun a matcher =>
       match matcher with
       | MatchHost hostMatcher => rangeHosts hostMatcher a
       | OtherMatcher _ => a
       end)
    matcherSet a.

(** [for _, matcherSet := range route.MatcherSets] *)
Definition rangeMatcherSets (route : Route) (a : App) : App :=
  fold_left (fun a matcherSet => rangeMatchers matcherSet a) (MatcherSets route) a.

(** [for _, rawHandler := range route.HandlersRaw]: a handler that does not
    decode returns from the whole function at once. *)
Fixpoint rangeHandlers `{JSON} (route : Route) (raws : list RawMessage) (a : App)
  : App * error :=
  match raws with
  | [] => (a, None)
  | rawHandler :: raws' =>
      match Unmarshal rawHandler with
      | inl err => (a, Fmt.Errorf "failed to unmarshal handler: %v" [err])
      | inr handler =>
          let a := if isReverseProxy handler then rangeMatcherSets route a else a in
          rangeHandlers route raws' a
      end
  end.

(** [for _, route := range server.Routes] *)
Fixpoint rangeRoutes `{JSON} (routes : list Route) (a : App) : App * error :=
  match routes with
  | [] => (a, None)
  | route :: routes' =>
      match rangeHandlers route (HandlersRaw route) a with
      | (a, None) => rangeRoutes routes' a
      | (a, Some err) => (a, Some err)
      end
  end.

(** [for _, server := range httpApp.Servers], the servers in visiting order. *)
Fixpoint rangeServers `{JSON} (servers : list Server) (a : App) : App * error :=
  match servers with
  | [] => (a, None)
  | server :: servers' =>
      match rangeRoutes (Routes server) a with
      | (a, None) => rangeServers servers' a
      | (a, Some err) => (a, Some err)
      end
  end.

(** [order] is a visiting order of the entries of the map [m]. *)
Definition range_of {V : Type} (m : gmap string V) (order : list (string * V)) : Prop :=
  order ≡ₚ map_to_list m.

(** [App.addReverseProxyCNAMEs], when [range httpApp.Servers] visits the
    servers in [order]. *)
Definition addReverseProxyCNAMEs `{JSON} (order : list (string * Server)) (a : App)
  : App * error :=
  match ctxHTTPApp (ctx a) with
  | inl err => (a, Fmt.Errorf "failed to get HTTP app: %v" [err])
  | inr httpApp => rangeServers (order.*2) a
  end.

(** [order] is a visiting order of the servers of the app's HTTP app (any
    list will do when there is none to visit). *)
Definition servers_order (a : App) (order : list (string * Server)) : Prop :=
  match ctxHTTPApp (ctx a) with
  | inl _ => True
  | inr httpApp => range_of (Servers httpApp) order
  end.

(** [App.Start]: discovery when a zone is configured; a discovery error is
    returned and the loop is not launched.  The [bool] tells whether
    [go a.checkerLoop()] was reached. *)
Definition Start `{JSON} (order : list (string * Server)) (a : App)
  : App * error * bool :=
  if negb (String.eqb (AutoCNAMEZone a) "")
  then match addReverseProxyCNAMEs order a with
       | (a, Some err) =>
           (a, Fmt.Errorf "failed to add reverse proxy CNAMEs: %v" [err], false)
       | (a, None) => (a, None, true)
       end
  else (a, None, true).

(** [App.Stop] *)
Definition Stop (a : App) : error := None.

(** [App.allDomains] *)
Definition allDomains (a : App) : option (gmap string (list string)) := Domains a.

(** ** The remote update: [App.updateCNAME] over [golang.org/x/crypto/ssh] *)

Inductive AuthMethod : Type :=
| AuthPassword (secret : string).

Inductive HostKeyCallback : Type :=
| InsecureIgnoreHostKey.

(** [ssh.ClientConfig], the fields the module sets. *)
Record ClientConfig : Type := mkClientConfig {
  cfgUser : string;
  cfgAuth : list AuthMethod;
  cfgHostKeyCallback : HostKeyCallback
}.

(** The SSH library acting on the outside world [W]: each call takes the
    world and returns it changed.  [CombinedOutput] returns the output read
    so far together with its error. *)
Class SSH (W : Type) : Type := {
  Client : Type;
  Session : Type;
  Dial : string -> string -> ClientConfig -> W -> (string + Client) * W;
  NewSession : Client -> W -> (string + Session) * W;
  CombinedOutput : Session -> string -> W -> (string * error) * W;
  SessionClose : Session -> W -> W;
  ClientClose : Client -> W -> W
}.

(** [cmd := fmt.Sprintf("Add-DnsServerResourceRecordCName -ZoneName %s -Name %s
    -HostNameAlias %s", zone, domain, zone)] *)
Definition cnameCmd (zone domain : string) : string :=
  Fmt.Sprintf
    "Add-DnsServerResourceRecordCName -ZoneName %s -Name %s -HostNameAlias %s"
    [zone; domain; zone].

(** [fullCmd := fmt.Sprintf("powershell -Command \"%s\"", cmd)] *)
Definition cnameFullCmd (zone domain : string) : string :=
  Fmt.Sprintf ("powershell -Command " +:+ dquote +:+ "%s" +:+ dquote)
              [cnameCmd zone domain].

(** The [ssh.ClientConfig] built at the top of [updateCNAME]. *)
Definition clientConfig (a : App) : ClientConfig :=
  {| cfgUser := User (DNSServer a);
     cfgAuth := [AuthPassword (Password (DNSServer a))];
     cfgHostKeyCallback := InsecureIgnoreHostKey |}.

(** [App.updateCNAME].  The deferred [session.Close()] and [client.Close()]
    run, in that order, on every return after they were registered. *)
Definition updateCNAME {W : Type} `{SSH W} (a : App) (zone domain : string) (w : W)
  : error * W :=
  let config := clientConfig a in
  match Dial "tcp" (Host (DNSServer a) +:+ ":22") config w with
  | (inl err, w) => (Fmt.Errorf "failed to dial: %v" [err], w)
  | (inr client, w) =>
      match NewSession client w with
      | (inl err, w) =>
          (Fmt.Errorf "failed to create session: %v" [err], ClientClose client w)
      | (inr session, w) =>
          let fullCmd := cnameFullCmd zone domain in
          match CombinedOutput session fullCmd w with
          | ((output, Some err), w) =>
              (Fmt.Errorf "failed to run command: %v, output: %s" [err; output],
               ClientClose client (SessionClose session w))
          | ((output, None), w) =>
              if GoStrings.Contains output "Error"
              then (Fmt.Errorf "DNS record update failed: %s" [output],
                    ClientClose client (SessionClose session w))
              else (None, ClientClose client (SessionClose session w))
          end
      end
  end.

(** ** The reconciliation pass: [App.updateDNS] *)

Inductive Level : Type := DebugLevel | InfoLevel | ErrorLevel.

(** One [zap] log entry: level, message, and the fields in call order
    ([zap.String(k, v)] is [(k, v)], [zap.Error(err)] is [("error", text)]). *)
Record LogEntry : Type := mkLog {
  level : Level;
  message : string;
  fields : list (string * string)
}.

(** The body of [for _, domain := range domains]: one [updateCNAME] call and
    one log entry for its outcome. *)
Definition updateOne {W : Type} `{SSH W} (a : App) (zone domain : string)
    (st : list LogEntry * W) : list LogEntry * W :=
  let (log, w) := st in
  match updateCNAME a zone domain w with
  | (Some err, w) =>
      (log ++ [mkLog ErrorLevel "failed updating CNAME record"
                 [("zone", zone); ("domain", domain); ("error", err)]], w)
  | (None, w) =>
      (log ++ [mkLog InfoLevel "updated CNAME record"
                 [("zone", zone); ("domain", domain)]], w)
  end.

(** [for _, domain := range domains] *)
Definition rangeDomains {W : Type} `{SSH W} (a : App) (zone : string)
    (domains : list string) (st : list LogEntry * W) : list LogEntry * W :=
  fold_left (fun st domain => updateOne a zone domain st) domains st.

(** [for zone, domains := range allDomains], the entries in visiting order. *)
Definition rangeZones {W : Type} `{SSH W} (a : App)
    (order : list (string * list string)) (st : list LogEntry * W)
  : list LogEntry * W :=
  fold_left (fun st zd => rangeDomains a zd.1 zd.2 st) order st.

(** [App.updateDNS], when [range allDomains] visits the zones in [order];
    the result is the log written by the pass and the world after it. *)
Definition updateDNS {W : Type} `{SSH W} (order : list (string * list string))
    (a : App) (w : W) : list LogEntry * W :=
  let st := ([mkLog DebugLevel "beginning DNS update" []], w) in
  let (log, w) := rangeZones a order st in
  (log ++ [mkLog InfoLevel "finished updating DNS" []], w).

(** [order] is a visiting order of the zones of [a.allDomains()]; ranging
    over a nil map visits nothing. *)
Definition domains_order (a : App) (order : list (string * list string)) : Prop :=
  range_of (default ∅ (allDomains a)) order.

(** The value of field [k] of a log entry. *)
Fixpoint field (k : string) (fs : list (string * string)) : option string :=
  match fs with
  | [] => None
  | (k', v) :: fs' => if String.eqb k k' then Some v else field k fs'
  end.

(** The (zone, name) pair an entry reports an update attempt on, and whether
    the attempt succeeded; the two entries without fields that open and close
    the pass report none. *)
Definition attempt_of (e : LogEntry) : option (string * string * bool) :=
  match field "zone" (fields e), field "domain" (fields e) with
  | Some zone, Some domain =>
      Some (zone, domain,
            match level e with ErrorLevel => false | _ => true end)
  | _, _ => None
  end.

(** The update attempts of a pass, in order, read off its log. *)
Definition attempts (log : list LogEntry) : list (string * string) :=
  omap (fun e => fst <$> attempt_of e) log.

(** The outcomes of the attempts of a pass, in order: [true] for success. *)
Definition outcomes (log : list LogEntry) : list bool :=
  omap (fun e => snd <$> attempt_of e) log.

(** The targets of a pass: the map flattened in visiting order, one target
    for each element of each name list. *)
Definition targets (order : list (string * list string)) : list (string * string) :=
  flat_map (fun zd => map (pair zd.1) zd.2) order.


(** The pass as one loop over its targets (used to reason about the two
    nested loops at once). *)
Definition passOver {W : Type} `{SSH W} (a : App) (ts : list (string * string))
    (st : list LogEntry * W) : list LogEntry * W :=
  fold_left (fun st t => updateOne a t.1 t.2 st) ts st.

(** ** A scripted remote host

    An instance of the SSH interface for running the pass on concrete
    inputs: the host answers each connection as the head of its script says,
    and keeps a record of what it was asked. *)

(** What the remote side does with one connection. *)
Inductive Transcript : Type :=
| DialFails (err : string)
| SessionFails (err : string)
| Runs (output : string) (err : error).

Record Remote : Type := mkRemote {
  script : list Transcript;
  dialed : list (string * string * ClientConfig);
  commands : list string;
  closed : nat
}.

Definition remote_dial (network addr : string) (config : ClientConfig) (w : Remote)
  : (string + unit) * Remote :=
  let seen := dialed w ++ [(network, addr, config)] in
  match script w with
  | [] => (inl "connection refused", mkRemote [] seen (commands w) (closed w))
  | DialFails err :: rest => (inl err, mkRemote rest seen (commands w) (closed w))
  | _ :: _ => (inr tt, mkRemote (script w) seen (commands w) (closed w))
  end.

Definition remote_session (_ : unit) (w : Remote) : (string + unit) * Remote :=
  match script w with
  | SessionFails err :: rest =>
      (inl err, mkRemote rest (dialed w) (commands w) (closed w))
  | _ => (inr tt, w)
  end.

Definition remote_run (_ : unit) (cmd : string) (w : Remote)
  : (string * error) * Remote :=
  let seen := commands w ++ [cmd] in
  match script w with
  | Runs output err :: rest =>
      ((output, err), mkRemote rest (dialed w) seen (closed w))
  | _ => (("", Some "EOF"), mkRemote (tail (script w)) (dialed w) seen (closed w))
  end.

Definition remote_close (_ : unit) (w : Remote) : Remote :=
  mkRemote (script w) (dialed w) (commands w) (S (closed w)).

#[export] Instance scripted_SSH : SSH Remote := {
  Client := unit;
  Session := unit;
  Dial := remote_dial;
  NewSession := remote_session;
  CombinedOutput := remote_run;
  SessionClose := remote_close;
  ClientClose := remote_close
}.

(** A host that has not been contacted yet and will follow [s]. *)
Definition fresh_remote (s : list Transcript) : Remote := mkRemote s [] [] 0.

(** The classification of section 4.3 of the design, on a transcript: an
    update succeeds when the command ran without a transport error and its
    output does not mention [Error]. *)
Definition succeeded (t : Transcript) : bool :=
  match t with
  | Runs output None => negb (GoStrings.Contains output "Error")
  | _ => false
  end.

(** A decoder for concrete snapshots: handlers are written in a one-letter
    encoding, [R] for a reverse-proxy handler, [F] for a file server, [N]
    for an object without discriminator, anything else does not decode. *)
Definition sample_Unmarshal (raw : RawMessage) : string + gmap string JsonValue :=
  if String.eqb raw "R" then inr {[ "handler" := JString "reverse_proxy" ]}
  else if String.eqb raw "F" then inr {[ "handler" := JString "file_server" ]}
  else if String.eqb raw "N" then inr ∅
  else inl "invalid character".

Definition sample_JSON : JSON := {| Unmarshal := sample_Unmarshal |}.

(** ** The Caddyfile parser: [parseApp]

    [caddyfile.Dispenser] belongs to the Caddy library.  It is modelled here
    as the library implements it: a token list, a cursor that starts before
    the first token, and a nesting level.  Error values carry the message
    only (the library adds the file and line of the current token). *)

Record Token : Type := mkToken {
  File : string;
  Line : Z;
  Text : string
}.

(** The library's [isNextOnNewLine(t1, t2)], which decides from the tokens'
    files and lines whether [t2] starts a new line; its definition differs
    between library versions, so it is left open. *)
Class Layout : Type := {
  isNextOnNewLine : Token -> Token -> bool
}.

Record Dispenser : Type := mkDispenser {
  tokens : list Token;
  cursor : Z;
  nesting : Z
}.

(** [caddyfile.NewDispenser] *)
Definition NewDispenser (toks : list Token) : Dispenser :=
  {| tokens := toks; cursor := -1; nesting := 0 |}.

Definition set_cursor (c : Z) (d : Dispenser) : Dispenser :=
  {| tokens := tokens d; cursor := c; nesting := nesting d |}.
Definition set_nesting (n : Z) (d : Dispenser) : Dispenser :=
  {| tokens := tokens d; cursor := cursor d; nesting := n |}.

(** [len(d.tokens)] *)
Definition ntokens (d : Dispenser) : Z := Z.of_nat (length (tokens d)).

(** [d.Val()]: the text of the current token, empty when there is none. *)
Definition Val (d : Dispenser) : string :=
  if (cursor d <? 0) || (ntokens d <=? cursor d) then ""
  else match tokens d !! Z.to_nat (cursor d) with
       | Some t => Text t
       | None => ""
       end.

(** [d.Nesting()] *)
Definition Nesting (d : Dispenser) : Z := nesting d.

(** [d.Next()] *)
Definition Next (d : Dispenser) : bool * Dispenser :=
  if cursor d <? ntokens d - 1
  then (true, set_cursor (cursor d + 1) d)
  else (false, d).

(** [d.nextOnSameLine()]; both indexed tokens exist where the code reads
    them, so the last branch is never taken. *)
Definition nextOnSameLine `{Layout} (d : Dispenser) : bool * Dispenser :=
  if cursor d <? 0 then (true, set_cursor (cursor d + 1) d)
  else if ntokens d - 1 <=? cursor d then (false, d)
  else match tokens d !! Z.to_nat (cursor d),
             tokens d !! Z.to_nat (cursor d + 1) with
       | Some curr, Some next =>
           if negb (isNextOnNewLine curr next)
           then (true, set_cursor (cursor d + 1) d)
           else (false, d)
       | _, _ => (false, d)
       end.

(** [d.NextArg()] *)
Definition NextArg `{Layout} (d : Dispenser) : bool * Dispenser :=
  match nextOnSameLine d with
  | (false, d) => (false, d)
  | (true, d) =>
      if String.eqb (Val d) "{"
      then (false, set_cursor (cursor d - 1) d)
      else (true, d)
  end.

(** The condition [d.Val() == brace && !d.nextOnSameLine()], with the cursor
    movement of its second operand. *)
Definition braceEndsLine `{Layout} (brace : string) (d : Dispenser)
  : bool * Dispenser :=
  if String.eqb (Val d) brace
  then match nextOnSameLine d with
       | (same, d) => (negb same, d)
       end
  else (false, d).

(** [d.NextBlock(initialNestingLevel)] *)
Definition NextBlock `{Layout} (initialNestingLevel : Z) (d : Dispenser)
  : bool * Dispenser :=
  if initialNestingLevel <? nesting d then
    match Next d with
    | (false, d) => (false, d)
    | (true, d) =>
        let d :=
          match braceEndsLine "}" d with
          | (true, d) => set_nesting (nesting d - 1) d
          | (false, d) =>
              match braceEndsLine "{" d with
              | (true, d) => set_nesting (nesting d + 1) d
              | (false, d) => d
              end
          end in
        (initialNestingLevel <? nesting d, d)
    end
  else
    match nextOnSameLine d with
    | (false, d) => (false, d)
    | (true, d) =>
        if negb (String.eqb (Val d) "{")
        then (false, set_cursor (cursor d - 1) d)
        else
          let d := snd (Next d) in
          if String.eqb (Val d) "}"
          then (false, d)
          else (true, set_nesting (nesting d + 1) d)
    end.

(** [d.RemainingArgs()]: [for d.NextArg() { args = append(args, d.Val()) }].
    The loop is bounded by [fuel]; [None] means the bound was reached. *)
Fixpoint RemainingArgs_loop `{Layout} (fuel : nat) (d : Dispenser) (args : list string)
  : option (list string * Dispenser) :=
  match fuel with
  | O => None
  | S fuel =>
      match NextArg d with
      | (true, d) => RemainingArgs_loop fuel d (args ++ [Val d])
      | (false, d) => Some (args, d)
      end
  end.

(** Every true answer of a loop condition moves the cursor forward, so one
    more round than there are tokens is bound enough for any loop. *)
Definition loop_bound (d : Dispenser) : nat := S (length (tokens d)).

Definition RemainingArgs `{Layout} (d : Dispenser) : option (list string * Dispenser) :=
  RemainingArgs_loop (loop_bound d) d [].

(** [d.ArgErr()] *)
Definition ArgErr (d : Dispenser) : string :=
  if String.eqb (Val d) "{"
  then "unexpected token '{', expecting argument"
  else Fmt.Sprintf "wrong argument count or unexpected line ending after '%s'" [Val d].

(** [d.Errf(format, args...)] *)
Definition Errf (d : Dispenser) (format : string) (args : list string) : string :=
  Fmt.Sprintf format args.

(** [caddy.ParseDuration], a library function. *)
Class Durations : Type := {
  ParseDuration : string -> string + Z
}.

(** The outcome of a parsing function: a value, an error, or the loop bound
    reached. *)
Inductive Parsed (A : Type) : Type :=
| Ok (a : A)
| Failed (err : string)
| OutOfFuel.
Arguments Ok {A} a.
Arguments Failed {A} err.
Arguments OutOfFuel {A}.

(** [app.Domains[zone] = append(app.Domains[zone], names...)], after
    [if app.Domains == nil { app.Domains = make(map[string][]string) }]. *)
Definition appendNames (zone : string) (names : list string) (app : App) : App :=
  let domains : gmap string (list string) :=
    match Domains app with
    | None => ∅
    | Some m => m
    end in
  set_Domains (Some (<[zone := map_get (Some domains) zone ++ names]> domains)) app.

(** [case "domains"]: [for nesting := d.Nesting(); d.NextBlock(nesting); { ... }] *)
Fixpoint domainsLoop `{Layout} (fuel : nat) (nesting0 : Z) (d : Dispenser) (app : App)
  : Parsed (Dispenser * App) :=
  match fuel with
  | O => OutOfFuel
  | S fuel =>
      match NextBlock nesting0 d with
      | (false, d) => Ok (d, app)
      | (true, d) =>
          let zone := Val d in
          if String.eqb zone "" then Failed (ArgErr d)
          else
            match RemainingArgs d with
            | None => OutOfFuel
            | Some (names, d) =>
                let names := match names with [] => ["@"] | _ => names end in
                domainsLoop fuel nesting0 d (appendNames zone names app)
            end
      end
  end.

(** One property of the [dns_server] block: the [switch d.Val()] of the
    inner loop. *)
Definition dnsServerProperty `{Layout} (d : Dispenser) (app : App)
  : Parsed (Dispenser * App) :=
  let srv := DNSServer app in
  if String.eqb (Val d) "host" then
    match NextArg d with
    | (false, d) => Failed (ArgErr d)
    | (true, d) =>
        Ok (d, set_DNSServer (mkDNSServer (Val d) (User srv) (Password srv)) app)
    end
  else if String.eqb (Val d) "user" then
    match NextArg d with
    | (false, d) => Failed (ArgErr d)
    | (true, d) =>
        Ok (d, set_DNSServer (mkDNSServer (Host srv) (Val d) (Password srv)) app)
    end
  else if String.eqb (Val d) "password" then
    match NextArg d with
    | (false, d) => Failed (ArgErr d)
    | (true, d) =>
        Ok (d, set_DNSServer (mkDNSServer (Host srv) (User srv) (Val d)) app)
    end
  else Failed (Errf d "unknown dns_server property '%s'" [Val d]).

(** [case "dns_server"]: [for nesting := d.Nesting(); d.NextBlock(nesting); { ... }] *)
Fixpoint dnsServerLoop `{Layout} (fuel : nat) (nesting0 : Z) (d : Dispenser) (app : App)
  : Parsed (Dispenser * App) :=
  match fuel with
  | O => OutOfFuel
  | S fuel =>
      match NextBlock nesting0 d with
      | (false, d) => Ok (d, app)
      | (true, d) =>
          match dnsServerProperty d app with
          | Ok (d, app) => dnsServerLoop fuel nesting0 d app
          | Failed err => Failed err
          | OutOfFuel => OutOfFuel
          end
      end
  end.

(** A duration argument: [check_interval <duration>] and [ttl <duration>]. *)
Definition durationArg `{Layout} `{Durations} (d : Dispenser)
  : Parsed (Dispenser * Z) :=
  match NextArg d with
  | (false, d) => Failed (ArgErr d)
  | (true, d) =>
      match ParseDuration (Val d) with
      | inl err => Failed err
      | inr dur => Ok (d, dur)
      end
  end.

(** The body of the outer loop: [switch d.Val()]. *)
Definition directive `{Layout} `{Durations} (d : Dispenser) (app : App)
  : Parsed (Dispenser * App) :=
  if String.eqb (Val d) "domains" then
    domainsLoop (loop_bound d) (Nesting d) d app
  else if String.eqb (Val d) "check_interval" then
    match durationArg d with
    | Ok (d, dur) => Ok (d, set_CheckInterval dur app)
    | Failed err => Failed err
    | OutOfFuel => OutOfFuel
    end
  else if String.eqb (Val d) "dns_server" then
    dnsServerLoop (loop_bound d) (Nesting d) d app
  else if String.eqb (Val d) "ttl" then
    match durationArg d with
    | Ok (d, dur) => Ok (d, set_TTL dur app)
    | Failed err => Failed err
    | OutOfFuel => OutOfFuel
    end
  else if String.eqb (Val d) "auto_cname" then
    match NextArg d with
    | (false, d) => Ok (d, set_AutoCNAMEZone (Val d) app)
    | (true, d) => Ok (d, app)
    end
  else Failed (ArgErr d).

(** [for d.NextBlock(0) { switch d.Val() { ... } }] *)
Fixpoint blockLoop `{Layout} `{Durations} (fuel : nat) (d : Dispenser) (app : App)
  : Parsed App :=
  match fuel with
  | O => OutOfFuel
  | S fuel =>
      match NextBlock 0 d with
      | (false, d) => Ok app
      | (true, d) =>
          match directive d app with
          | Ok (d, app) => blockLoop fuel d app
          | Failed err => Failed err
          | OutOfFuel => OutOfFuel
          end
      end
  end.

(** [parseApp]: the parsed [App], which the function hands to Caddy encoded
    as the JSON value of the [dynamic_dns] app. *)
Definition parseApp `{Layout} `{Durations} (d : Dispenser) : Parsed App :=
  let app := newApp in
  match Next d with
  | (false, d) => Failed (ArgErr d)
  | (true, d) => blockLoop (loop_bound d) d app
  end.

(** Token [i] is followed by an argument: a token on the same line that does
    not open a block. *)
Definition argFollows `{Layout} (toks : list Token) (i : nat) : bool :=
  match toks !! i, toks !! S i with
  | Some curr, Some next =>
      negb (isNextOnNewLine curr next) && negb (String.eqb (Text next) "{")
  | _, _ => false
  end.

(** Every [auto_cname] token of the input is followed by an argument. *)
Definition auto_cname_has_arg `{Layout} (toks : list Token) : Prop :=
  forall i t, toks !! i = Some t -> Text t = "auto_cname" ->
              argFollows toks i = true.

(** Some [auto_cname] token of the input is not followed by an argument. *)
Definition auto_cname_bare `{Layout} (toks : list Token) : Prop :=
  exists i t, toks !! i = Some t /\ Text t = "auto_cname" /\
              argFollows toks i = false.

(** A layout for concrete inputs: tokens of one file, a token starts a new
    line when its line number is larger. *)
Definition byLine : Layout :=
  {| isNextOnNewLine := fun t1 t2 =>
       negb (String.eqb (File t1) (File t2)) || (Line t1 <? Line t2) |}.

(** A duration parser for concrete inputs: whole seconds, written [<n>s]
    with [n] a single digit. *)
Definition sample_ParseDuration (s : string) : string + Z :=
  match s with
  | String c (String "s" EmptyString) =>
      let n := (Z.of_nat (nat_of_ascii c) - 48) in
      if (0 <=? n) && (n <=? 9) then inr (n * Second) else inl "invalid duration"
  | _ => inl "invalid duration"
  end.

Definition sample_Durations : Durations := {| ParseDuration := sample_ParseDuration |}.

(** The tokens of a one-file input, given as lines of words. *)
Definition lex_lines (lines : list (list string)) : list Token :=
  concat (imap (fun i words => map (mkToken "Caddyfile" (Z.of_nat (S i))) words) lines).

(** ** Notions used to reason about the parser *)

(** A parsing function ended, and if it ended with a value, the value
    satisfies [P]. *)
Definition results {A : Type} (P : A -> Prop) (r : Parsed A) : Prop :=
  match r with
  | Ok a => P a
  | Failed _ => True
  | OutOfFuel => False
  end.

(** The cursor is on a token. *)
Definition onToken (d : Dispenser) : Prop :=
  0 <= cursor d <= ntokens d - 1.

(** [d'] is [d] after some calls: same tokens, cursor on a token and not
    moved backwards. *)
Definition advances (d d' : Dispenser) : Prop :=
  tokens d' = tokens d /\ onToken d' /\ cursor d <= cursor d'.

(** The number of tokens after the cursor. *)
Definition remaining (d : Dispenser) : nat :=
  Z.to_nat (ntokens d - 1 - cursor d).

(** What the parser can leave in [AutoCNAMEZone]: nothing, or the word
    [auto_cname] when some [auto_cname] token of the input has no argument. *)
Definition zoneUnsetOrBare `{Layout} (toks : list Token) (app : App) : Prop :=
  AutoCNAMEZone app = ""
  \/ (AutoCNAMEZone app = "auto_cname" /\ auto_cname_bare toks).

(** Inputs for the parser: [auto_cname] with a zone argument, and alone. *)
Definition withZoneArg : list Token :=
  lex_lines [["dynamic_dns"; "{"]; ["auto_cname"; "example.com"]; ["}"]].

Definition withoutArg : list Token :=
  lex_lines [["dynamic_dns"; "{"]; ["auto_cname"]; ["}"]].

(** ** What discovery adds, as functions of the snapshot

    These describe the result of the discovery loops; the lemmas below
    relate them to the loops themselves. *)

(** The name stored for a host: the host without a trailing [.<zone>]. *)
Definition hostLabel (zone host : string) : string :=
  GoStrings.TrimSuffix host ("." +:+ zone).

(** Appending names to the list of the auto-discovery zone; nothing is
    touched when there is nothing to append. *)
Definition appendLabels (ls : list string) (a : App) : App :=
  match ls with
  | [] => a
  | _ :: _ =>
      set_Domains
        (Some (<[AutoCNAMEZone a := map_get (Domains a) (AutoCNAMEZone a) ++ ls]>
                 (default ∅ (Domains a))))
        a
  end.

Definition matcherHosts (m : RequestMatcher) : list string :=
  match m with
  | MatchHost hosts => hosts
  | OtherMatcher _ => []
  end.

(** The hosts of the host matchers of a route, in loop order. *)
Definition routeHosts (route : Route) : list string :=
  flat_map (flat_map matcherHosts) (MatcherSets route).

Definition routeLabels (zone : string) (route : Route) : list string :=
  map (hostLabel zone) (routeHosts route).

(** A raw handler that [json.Unmarshal] rejects. *)
Definition malformed `{JSON} (raw : RawMessage) : Prop :=
  exists err, Unmarshal raw = inl err.

(** The names one handler of a route contributes. *)
Definition handlerLabels `{JSON} (zone : string) (route : Route) (raw : RawMessage)
  : list string :=
  match Unmarshal raw with
  | inr handler => if isReverseProxy handler then routeLabels zone route else []
  | inl _ => []
  end.

Definition routeDiscovered `{JSON} (zone : string) (route : Route) : list string :=
  flat_map (handlerLabels zone route) (HandlersRaw route).

Definition serverDiscovered `{JSON} (zone : string) (server : Server) : list string :=
  flat_map (routeDiscovered zone) (Routes server).

Definition discovered `{JSON} (zone : string) (servers : list Server) : list string :=
  flat_map (serverDiscovered zone) servers.

(** Some handler of some route of some server does not decode. *)
Definition malformedIn `{JSON} (servers : list Server) : Prop :=
  exists server route raw,
    server ∈ servers /\ route ∈ Routes server /\ raw ∈ HandlersRaw route
    /\ malformed raw.

(** The snapshot of the app holds a handler that does not decode. *)
Definition snapshotMalformed `{JSON} (a : App) : Prop :=
  match ctxHTTPApp (ctx a) with
  | inl _ => False
  | inr httpApp => malformedIn (map_to_list (Servers httpApp)).*2
  end.

(** ** Example inputs *)

(** An app whose domain map is [m]. *)
Definition appWithDomains (m : gmap string (list string)) : App :=
  set_Domains (Some m) newApp.

(** A zone that lists the name [www] twice, as the parser produces from
    [domains { example.com www www }]. *)
Definition twiceWww : gmap string (list string) :=
  {[ "example.com" := ["www"; "www"] ]}.


(** Three targets and a host that refuses the second connection. *)
Definition threeTargets : list (string * list string) :=
  [("example.com", ["a"; "b"]); ("example.org", ["c"])].

Definition secondFails : list Transcript :=
  [Runs "" None; DialFails "connection reset"; Runs "" None].

(** A route with one reverse-proxy handler and one host matcher. *)
Definition proxyRoute (hosts : list string) : Route :=
  {| MatcherSets := [[MatchHost hosts]]; HandlersRaw := ["R"] |}.


(** A route whose only handler does not decode. *)
Definition brokenRoute : Route :=
  {| MatcherSets := []; HandlersRaw := ["{"] |}.

(** An app with auto-discovery zone [zone], no domains yet, and an HTTP app
    with a single server holding [routes]. *)
Definition discoveryApp (zone : string) (routes : list Route) : App :=
  set_ctx {| ctxHTTPApp := inr {| Servers := {[ "srv0" := mkServer routes ]} |} |}
          (set_AutoCNAMEZone zone newApp).

(** The one visiting order of that server map. *)
Definition oneServer (routes : list Route) : list (string * Server) :=
  [("srv0", mkServer routes)].

(** ** The background loop: [App.checkerLoop]

    The loop runs in its own goroutine and blocks in [select] on the ticker
    channel and on [a.ctx.Done()].  What [select] receives, in order, is the
    input of the model: [Tick] for a receive from [ticker.C], [Done] for a
    receive from the context. *)

Inductive Event : Type := Tick | Done.

(** How a run of the loop over a finite list of events stands at the end:
    it returned, it is blocked in [select], or [time.NewTicker] panicked. *)
Inductive LoopEnd : Type := Returned | Waiting | Panicked.

(** [for { select { case <-ticker.C: a.updateDNS(); case <-a.ctx.Done(): return } }];
    [pick n] is the visiting order of pass number [n], [pass] the number of
    passes made so far. *)
Fixpoint checkerSelect {W : Type} `{SSH W} (pick : nat -> list (string * list string))
    (a : App) (events : list Event) (pass : nat) (st : list LogEntry * W)
  : list LogEntry * W * LoopEnd :=
  match events with
  | [] => (st, Waiting)
  | Tick :: events' =>
      let (log, w) := updateDNS (pick pass) a st.2 in
      checkerSelect pick a events' (S pass) (st.1 ++ log, w)
  | Done :: _ => (st, Returned)
  end.

(** [App.checkerLoop].  [time.NewTicker(d)] panics when [d <= 0]; the
    deferred [ticker.Stop()] has no effect on the log or the remote side. *)
Definition checkerLoop {W : Type} `{SSH W} (pick : nat -> list (string * list string))
    (a : App) (events : list Event) (w : W) : list LogEntry * W * LoopEnd :=
  if CheckInterval a <=? 0 then (([], w), Panicked)
  else checkerSelect pick a events 1%nat (updateDNS (pick 0%nat) a w).

(** The events received before the first [Done]. *)
Fixpoint beforeDone (events : list Event) : list Event :=
  match events with
  | [] => []
  | Done :: _ => []
  | Tick :: events' => Tick :: beforeDone events'
  end.

(** ** Further remote hosts *)

(** A host that keeps track of the connections and sessions it has open.
    Handles are numbered; a session remembers the client it belongs to. *)
Record Tracked : Type := mkTracked {
  tScript : list Transcript;
  nextHandle : nat;
  openClients : list nat;
  openSessions : list (nat * nat);
  orphaned : bool
}.

Definition tracked_dial (network addr : string) (config : ClientConfig) (w : Tracked)
  : (string + nat) * Tracked :=
  match tScript w with
  | [] => (inl "connection refused", w)
  | DialFails err :: rest =>
      (inl err, mkTracked rest (nextHandle w) (openClients w) (openSessions w)
                  (orphaned w))
  | _ :: _ =>
      (inr (nextHandle w),
       mkTracked (tScript w) (S (nextHandle w)) (nextHandle w :: openClients w)
                 (openSessions w) (orphaned w))
  end.

Definition tracked_session (client : nat) (w : Tracked)
  : (string + nat * nat) * Tracked :=
  match tScript w with
  | SessionFails err :: rest =>
      (inl err, mkTracked rest (nextHandle w) (openClients w) (openSessions w)
                  (orphaned w))
  | _ =>
      (inr (nextHandle w, client),
       mkTracked (tScript w) (S (nextHandle w)) (openClients w)
                 ((nextHandle w, client) :: openSessions w) (orphaned w))
  end.

Definition tracked_run (session : nat * nat) (cmd : string) (w : Tracked)
  : (string * error) * Tracked :=
  match tScript w with
  | Runs output err :: rest =>
      ((output, err), mkTracked rest (nextHandle w) (openClients w)
                        (openSessions w) (orphaned w))
  | _ =>
      (("", Some "EOF"), mkTracked (tail (tScript w)) (nextHandle w)
                           (openClients w) (openSessions w) (orphaned w))
  end.

Definition tracked_session_close (session : nat * nat) (w : Tracked) : Tracked :=
  mkTracked (tScript w) (nextHandle w) (openClients w)
            (filter (fun s => s <> session) (openSessions w)) (orphaned w).

(** Closing a client while one of its sessions is open orphans the session. *)
Definition tracked_client_close (client : nat) (w : Tracked) : Tracked :=
  mkTracked (tScript w) (nextHandle w)
            (filter (fun c => c <> client) (openClients w))
            (openSessions w)
            (orphaned w || existsb (fun s => Nat.eqb s.2 client) (openSessions w)).

Definition tracked_SSH : SSH Tracked := {|
  Client := nat;
  Session := nat * nat;
  Dial := tracked_dial;
  NewSession := tracked_session;
  CombinedOutput := tracked_run;
  SessionClose := tracked_session_close;
  ClientClose := tracked_client_close
|}.

(** Nothing is open and no session was ever orphaned. *)
Definition quiet (w : Tracked) : Prop :=
  openClients w = [] /\ openSessions w = [] /\ orphaned w = false.



(** The number of raw handlers that decode to a reverse-proxy handler. *)
Definition proxyCount `{JSON} (raws : list RawMessage) : nat :=
  length (List.filter
            (fun raw => match Unmarshal raw with
                        | inr handler => isReverseProxy handler
                        | inl _ => false
                        end)
            raws).

(** The entry written for a target. *)
Definition target_entry (e : LogEntry) : Prop :=
  (level e = InfoLevel /\ message e = "updated CNAME record"
   /\ field "error" (fields e) = None)
  \/ (level e = ErrorLevel /\ message e = "failed updating CNAME record"
      /\ is_Some (field "error" (fields e))).

(** ** Further notions: what the parser stores *)

(** [s] is the text of a token of the input. *)
Definition tokenText (toks : list Token) (s : string) : Prop :=
  exists t, t ∈ toks /\ Text t = s.

(** Every zone of the map has a name that is not empty and a list that is
    not empty. *)
Definition domainsWellFormed (app : App) : Prop :=
  forall m z l, Domains app = Some m -> m !! z = Some l -> z <> "" /\ l <> [].

(** Every string and duration of the app was read from the input: zones are
    token texts, names are token texts or the apex [@], the server settings
    are token texts when set, and the durations are what [ParseDuration]
    made of a token when set. *)
Definition fromInput `{Durations} (toks : list Token) (app : App) : Prop :=
  (forall m z l, Domains app = Some m -> m !! z = Some l ->
                 tokenText toks z
                 /\ Forall (fun n => n = "@" \/ tokenText toks n) l)
  /\ (Host (DNSServer app) = "" \/ tokenText toks (Host (DNSServer app)))
  /\ (User (DNSServer app) = "" \/ tokenText toks (User (DNSServer app)))
  /\ (Password (DNSServer app) = "" \/ tokenText toks (Password (DNSServer app)))
  /\ (CheckInterval app = 0
      \/ exists v, tokenText toks v /\ ParseDuration v = inr (CheckInterval app))
  /\ (TTL app = 0
      \/ exists v, tokenText toks v /\ ParseDuration v = inr (TTL app)).

(** Further inputs: a full [dynamic_dns] block, and a snapshot of two
    servers. *)
Definition fullBlock : list Token :=
  lex_lines [["dynamic_dns"; "{"];
             ["domains"; "{"];
             ["example.com"; "www"; "api"];
             ["example.org"];
             ["}"];
             ["check_interval"; "5s"];
             ["dns_server"; "{"];
             ["host"; "dns1"];
             ["user"; "admin"];
             ["password"; "secret"];
             ["}"];
             ["ttl"; "9s"];
             ["}"]].

Definition twoServers : gmap string Server :=
  {[ "srv0" := mkServer [proxyRoute ["a.example.com"]];
     "srv1" := mkServer [proxyRoute ["b.example.com"]] ]}.

Definition twoServerApp : App :=
  set_ctx {| ctxHTTPApp := inr {| Servers := twoServers |} |}
          (set_AutoCNAMEZone "example.com" newApp).


(** * Properties *)

(** ** Strings *)

Module GoStringsFacts.
Import GoStrings.

Lemma append_String (c : ascii) (s t : string) :
  String c s +:+ t = String c (s +:+ t).
Proof. reflexivity. Qed.

Lemma append_Empty (t : string) : "" +:+ t = t.
Proof. reflexivity. Qed.

Lemma append_empty_r (s : string) : s +:+ "" = s.
Proof.
  induction s as [|c s IH]; [reflexivity |].
  now rewrite append_String, IH.
Qed.

Lemma append_assoc (s t u : string) : (s +:+ t) +:+ u = s +:+ (t +:+ u).
Proof.
  induction s as [|c s IH]; [reflexivity |].
  now rewrite !append_String, IH.
Qed.

Lemma length_append (s t : string) :
  String.length (s +:+ t) = (String.length s + String.length t)%nat.
Proof.
  induction s as [|c s IH]; [reflexivity |].
  rewrite append_String. simpl. now rewrite IH.
Qed.

Lemma substring_all (s : string) : substring 0 (String.length s) s = s.
Proof. induction s as [|c s IH]; simpl; [reflexivity | now rewrite IH]. Qed.

Lemma substring_append_left (s t : string) :
  substring 0 (String.length s) (s +:+ t) = s.
Proof.
  induction s as [|c s IH].
  - destruct t; reflexivity.
  - rewrite append_String. simpl. now rewrite IH.
Qed.

Lemma substring_append_right (s t : string) :
  substring (String.length s) (String.length t) (s +:+ t) = t.
Proof.
  induction s as [|c s IH]; [apply substring_all |].
  rewrite append_String. simpl. exact IH.
Qed.

(** Cutting a string in two at any position gives back the string. *)
Lemma substring_split (n : nat) (s : string) :
  (n <= String.length s)%nat ->
  substring 0 n s +:+ substring n (String.length s - n) s = s.
Proof.
  revert s. induction n as [|n IH]; intros s Hn.
  - rewrite Nat.sub_0_r, substring_all. destruct s; reflexivity.
  - destruct s as [|c s]; simpl in *; [lia |].
    rewrite append_String, IH by lia. reflexivity.
Qed.

Lemma prefix_iff (p s : string) :
  String.prefix p s = true <-> exists r, s = p +:+ r.
Proof.
  revert s. induction p as [|a p IH]; intros s.
  - split; [intros _; now exists s | intros _; now destruct s].
  - destruct s as [|b s].
    + split; [discriminate | intros [r Hr]; discriminate].
    + change (String.prefix (String a p) (String b s))
        with (if ascii_dec a b then String.prefix p s else false).
      destruct (ascii_dec a b) as [->|Hne].
      * rewrite IH. split; intros [r Hr]; exists r.
        -- now rewrite append_String, Hr.
        -- rewrite append_String in Hr. congruence.
      * split; [discriminate |].
        intros [r Hr]. rewrite append_String in Hr. congruence.
Qed.

(** [HasSuffix] decides whether the string ends with the suffix. *)
Lemma HasSuffix_iff (s suffix : string) :
  HasSuffix s suffix = true <-> exists l, s = l +:+ suffix.
Proof.
  unfold HasSuffix. rewrite andb_true_iff, Nat.leb_le, String.eqb_eq. split.
  - intros [Hlen Hsub].
    exists (substring 0 (String.length s - String.length suffix) s).
    pose proof (substring_split (String.length s - String.length suffix) s) as E.
    replace (String.length s - (String.length s - String.length suffix))%nat
      with (String.length suffix) in E by lia.
    rewrite Hsub in E. symmetry. apply E. lia.
  - intros [l ->]. rewrite length_append. split; [lia |].
    replace (String.length l + String.length suffix - String.length suffix)%nat
      with (String.length l) by lia.
    apply substring_append_right.
Qed.

(** [TrimSuffix] removes the suffix when the string ends with it ... *)
Lemma TrimSuffix_append (l suffix : string) :
  TrimSuffix (l +:+ suffix) suffix = l.
Proof.
  unfold TrimSuffix.
  assert (HasSuffix (l +:+ suffix) suffix = true) as ->
    by (apply HasSuffix_iff; now exists l).
  rewrite length_append.
  replace (String.length l + String.length suffix - String.length suffix)%nat
    with (String.length l) by lia.
  apply substring_append_left.
Qed.

(** ... and returns the string as it is otherwise. *)
Lemma TrimSuffix_other (s suffix : string) :
  (forall l, s <> l +:+ suffix) -> TrimSuffix s suffix = s.
Proof.
  intros Hno. unfold TrimSuffix.
  destruct (HasSuffix s suffix) eqn:E; [| reflexivity].
  apply HasSuffix_iff in E as [l ->]. now destruct (Hno l).
Qed.

(** A string shorter than the suffix is returned as it is. *)
Lemma TrimSuffix_short (s suffix : string) :
  (String.length s < String.length suffix)%nat -> TrimSuffix s suffix = s.
Proof.
  intros Hlt. apply TrimSuffix_other. intros l ->.
  rewrite length_append in Hlt. lia.
Qed.

Lemma Contains_Empty (substr : string) :
  Contains "" substr = HasPrefix "" substr || false.
Proof. reflexivity. Qed.

Lemma Contains_String (c : ascii) (s substr : string) :
  Contains (String c s) substr
  = HasPrefix (String c s) substr || Contains s substr.
Proof. reflexivity. Qed.

(** [Contains] decides whether [substr] occurs in [s]. *)
Lemma Contains_iff (s substr : string) :
  Contains s substr = true <-> exists l r, s = l +:+ substr +:+ r.
Proof.
  induction s as [|c s IH].
  - rewrite Contains_Empty, orb_false_r. unfold HasPrefix.
    rewrite prefix_iff. split.
    + intros [r Hr]. now exists "", r.
    + intros [l [r Hr]]. destruct l; [now exists r | discriminate].
  - rewrite Contains_String, orb_true_iff, IH. unfold HasPrefix.
    rewrite prefix_iff. split.
    + intros [[r Hr] | [l [r Hr]]].
      * now exists "", r.
      * exists (String c l), r. now rewrite append_String, Hr.
    + intros [l [r Hr]]. destruct l as [|c' l].
      * left. now exists r.
      * right. exists l, r. rewrite append_String in Hr. congruence.
Qed.

End GoStringsFacts.

(** ** Provisioning *)

(** The default interval is 30 minutes, in nanoseconds. *)
Lemma defaultCheckInterval_value : defaultCheckInterval = 1800000000000.
Proof. reflexivity. Qed.

(** The three ways through [Provision]. *)
Lemma Provision_cases (c : Context) (a : App) :
  Provision c a
  = if CheckInterval a =? 0
    then (set_CheckInterval defaultCheckInterval (set_ctx c a), None)
    else if CheckInterval a <? Second
         then (set_ctx c a, Some "check interval must be at least 1 second")
         else (set_ctx c a, None).
Proof.
  unfold Provision.
  change (CheckInterval (set_ctx c a)) with (CheckInterval a).
  destruct (CheckInterval a =? 0); reflexivity.
Qed.

(** C1, as the claim states it, fails on the code: an interval of 0 is not
    refused.  Provisioning the zero-valued app succeeds and stores the
    30-minute default. *)
Lemma Provision_zero_interval_succeeds :
  CheckInterval newApp <= 0
  /\ (Provision zeroContext newApp).2 = None
  /\ CheckInterval (Provision zeroContext newApp).1 = 30 * Minute.
Proof. repeat split; [discriminate]. Qed.

(** C1 (amended): provisioning fails with a configuration error for every
    negative check interval (and for every positive one under one second);
    for every interval of at least one second it succeeds and the stored
    interval equals the input; an unset interval, which is the value 0, is
    accepted and the stored interval is the default of 30 minutes. *)
Theorem Provision_interval (c : Context) (a : App) :
  (CheckInterval a < 0 \/ 0 < CheckInterval a < Second ->
   (Provision c a).2 = Some "check interval must be at least 1 second")
  /\ (Second <= CheckInterval a ->
      (Provision c a).2 = None
      /\ CheckInterval (Provision c a).1 = CheckInterval a)
  /\ (CheckInterval a = 0 ->
      (Provision c a).2 = None
      /\ CheckInterval (Provision c a).1 = 30 * Minute).
Proof.
  rewrite Provision_cases.
  assert (HS : Second = 1000000000) by reflexivity.
  destruct (Z.eqb_spec (CheckInterval a) 0) as [E|N];
    [| destruct (Z.ltb_spec (CheckInterval a) Second) as [Hlt|Hge]];
    cbn [fst snd]; repeat split; intros; try reflexivity; lia.
Qed.

Lemma Provision_interval_witness :
  (Provision zeroContext (set_CheckInterval (-5) newApp)).2
    = Some "check interval must be at least 1 second"
  /\ CheckInterval (Provision zeroContext (set_CheckInterval (90 * Second) newApp)).1
    = 90 * Second
  /\ CheckInterval (Provision zeroContext newApp).1 = 30 * Minute.
Proof.
  split; [| split].
  - apply (Provision_interval zeroContext (set_CheckInterval (-5) newApp)).
    left. reflexivity.
  - apply (Provision_interval zeroContext (set_CheckInterval (90 * Second) newApp)).
    discriminate.
  - apply (Provision_interval zeroContext newApp). reflexivity.
Defined.

(** ** The remote update *)

(** The format strings of [updateCNAME], spelled out. *)
Lemma cnameCmd_eq (zone name : string) :
  cnameCmd zone name
  = "Add-DnsServerResourceRecordCName -ZoneName " +:+ zone
    +:+ " -Name " +:+ name +:+ " -HostNameAlias " +:+ zone.
Proof.
  rewrite <- (GoStringsFacts.append_empty_r zone) at 3. reflexivity.
Qed.

Lemma cnameFullCmd_eq (zone name : string) :
  cnameFullCmd zone name
  = "powershell -Command " +:+ dquote +:+ cnameCmd zone name +:+ dquote.
Proof. reflexivity. Qed.

(** C5: for every (zone, name) pair the command built by the remote update
    is [Add-DnsServerResourceRecordCName] with [-ZoneName zone], [-Name name]
    and [-HostNameAlias zone]: the alias target is the zone itself, whatever
    the name; and that command, wrapped in [powershell -Command "..."], is
    what a host that accepts the connection is asked to run. *)
Theorem updateCNAME_command (a : App) (zone name : string) :
  cnameCmd zone name
  = "Add-DnsServerResourceRecordCName -ZoneName " +:+ zone
    +:+ " -Name " +:+ name +:+ " -HostNameAlias " +:+ zone
  /\ forall output err rest,
       commands (updateCNAME a zone name (fresh_remote (Runs output err :: rest))).2
       = ["powershell -Command " +:+ dquote +:+ cnameCmd zone name +:+ dquote].
Proof.
  split; [apply cnameCmd_eq |].
  intros output err rest. unfold updateCNAME. cbn.
  destruct err as [e|]; [reflexivity |].
  destruct (GoStrings.Contains output "Error"); reflexivity.
Qed.

Section RemoteUpdate.
Context {W : Type} `{SSH W}.
Variables (a : App) (zone domain : string) (w : W).

Let addr : string := Host (DNSServer a) +:+ ":22".

Lemma updateCNAME_dial_fails (err : string) (w1 : W) :
  Dial "tcp" addr (clientConfig a) w = (inl err, w1) ->
  updateCNAME a zone domain w = (Some ("failed to dial: " +:+ err), w1).
Proof.
  intros HD. unfold updateCNAME. fold addr. rewrite HD.
  unfold Fmt.Errorf. cbn [Fmt.Sprintf].
  now rewrite GoStringsFacts.append_empty_r.
Qed.

Lemma updateCNAME_session_fails (client : Client) (err : string) (w1 w2 : W) :
  Dial "tcp" addr (clientConfig a) w = (inr client, w1) ->
  NewSession client w1 = (inl err, w2) ->
  updateCNAME a zone domain w
  = (Some ("failed to create session: " +:+ err), ClientClose client w2).
Proof.
  intros HD HS. unfold updateCNAME. fold addr. rewrite HD, HS.
  unfold Fmt.Errorf. cbn [Fmt.Sprintf].
  now rewrite GoStringsFacts.append_empty_r.
Qed.

Lemma updateCNAME_run_fails (client : Client) (session : Session)
    (output err : string) (w1 w2 w3 : W) :
  Dial "tcp" addr (clientConfig a) w = (inr client, w1) ->
  NewSession client w1 = (inr session, w2) ->
  CombinedOutput session (cnameFullCmd zone domain) w2 = ((output, Some err), w3) ->
  updateCNAME a zone domain w
  = (Some ("failed to run command: " +:+ err +:+ ", output: " +:+ output),
     ClientClose client (SessionClose session w3)).
Proof.
  intros HD HS HR. unfold updateCNAME. fold addr. rewrite HD, HS, HR.
  unfold Fmt.Errorf. cbn [Fmt.Sprintf].
  now rewrite (GoStringsFacts.append_empty_r output).
Qed.

Lemma updateCNAME_ran (client : Client) (session : Session)
    (output : string) (w1 w2 w3 : W) :
  Dial "tcp" addr (clientConfig a) w = (inr client, w1) ->
  NewSession client w1 = (inr session, w2) ->
  CombinedOutput session (cnameFullCmd zone domain) w2 = ((output, None), w3) ->
  updateCNAME a zone domain w
  = (if GoStrings.Contains output "Error"
     then Some ("DNS record update failed: " +:+ output)
     else None,
     ClientClose client (SessionClose session w3)).
Proof.
  intros HD HS HR. unfold updateCNAME. fold addr. rewrite HD, HS, HR.
  destruct (GoStrings.Contains output "Error"); [| reflexivity].
  unfold Fmt.Errorf. cbn [Fmt.Sprintf].
  now rewrite GoStringsFacts.append_empty_r.
Qed.

(** C4: when dialling, opening the session and running the command all
    return no error, the update returns an error if the combined output
    contains the substring [Error] and returns nil if it does not; a
    failure to dial, to open the session or to run the command makes the
    update return an error. *)
Theorem updateCNAME_classification :
  (forall client w1 session w2 output w3,
      Dial "tcp" addr (clientConfig a) w = (inr client, w1) ->
      NewSession client w1 = (inr session, w2) ->
      CombinedOutput session (cnameFullCmd zone domain) w2 = ((output, None), w3) ->
      ((exists l r, output = l +:+ "Error" +:+ r) ->
       (updateCNAME a zone domain w).1
       = Some ("DNS record update failed: " +:+ output))
      /\ (~ (exists l r, output = l +:+ "Error" +:+ r) ->
          (updateCNAME a zone domain w).1 = None))
  /\ (forall err w1,
        Dial "tcp" addr (clientConfig a) w = (inl err, w1) ->
        is_Some (updateCNAME a zone domain w).1)
  /\ (forall client w1 err w2,
        Dial "tcp" addr (clientConfig a) w = (inr client, w1) ->
        NewSession client w1 = (inl err, w2) ->
        is_Some (updateCNAME a zone domain w).1)
  /\ (forall client w1 session w2 output err w3,
        Dial "tcp" addr (clientConfig a) w = (inr client, w1) ->
        NewSession client w1 = (inr session, w2) ->
        CombinedOutput session (cnameFullCmd zone domain) w2
        = ((output, Some err), w3) ->
        is_Some (updateCNAME a zone domain w).1).
Proof.
  repeat apply conj.
  - intros client w1 session w2 output w3 HD HS HR.
    rewrite (updateCNAME_ran _ _ _ _ _ _ HD HS HR). cbn [fst].
    split; intros Hc.
    + apply GoStringsFacts.Contains_iff in Hc. now rewrite Hc.
    + destruct (GoStrings.Contains output "Error") eqn:E; [| reflexivity].
      apply GoStringsFacts.Contains_iff in E. contradiction.
  - intros err w1 HD. rewrite (updateCNAME_dial_fails _ _ HD). now eexists.
  - intros client w1 err w2 HD HS.
    rewrite (updateCNAME_session_fails _ _ _ _ HD HS). now eexists.
  - intros client w1 session w2 output err w3 HD HS HR.
    rewrite (updateCNAME_run_fails _ _ _ _ _ _ _ HD HS HR). now eexists.
Qed.

End RemoteUpdate.

Lemma updateCNAME_classification_witness :
  (updateCNAME newApp "example.com" "api"
     (fresh_remote [Runs "Error: zone not found" None])).1
  = Some "DNS record update failed: Error: zone not found"
  /\ (updateCNAME newApp "example.com" "api" (fresh_remote [Runs "" None])).1 = None
  /\ is_Some (updateCNAME newApp "example.com" "api"
                (fresh_remote [DialFails "timeout"])).1.
Proof.
  split; [| split].
  - destruct (updateCNAME_classification newApp "example.com" "api"
                (fresh_remote [Runs "Error: zone not found" None])) as [Hrun _].
    refine (proj1 (Hrun tt _ tt _ _ _ eq_refl eq_refl eq_refl) _).
    exists "", ": zone not found". reflexivity.
  - destruct (updateCNAME_classification newApp "example.com" "api"
                (fresh_remote [Runs "" None])) as [Hrun _].
    refine (proj2 (Hrun tt _ tt _ _ _ eq_refl eq_refl eq_refl) _).
    intros [l [r Hlr]]. destruct l; discriminate.
  - destruct (updateCNAME_classification newApp "example.com" "api"
                (fresh_remote [DialFails "timeout"])) as [_ [Hdial _]].
    exact (Hdial _ _ eq_refl).
Defined.

(** ** The reconciliation pass *)

Section Pass.
Context {W : Type} `{SSH W}.
Variable a : App.

(** One round of the inner loop appends one entry, which reports the
    target and whether [updateCNAME] returned nil. *)
Lemma updateOne_entry (zone domain : string) (log : list LogEntry) (w : W) :
  exists e,
    updateOne a zone domain (log, w) = (log ++ [e], (updateCNAME a zone domain w).2)
    /\ attempt_of e
       = Some (zone, domain,
               match (updateCNAME a zone domain w).1 with
               | None => true
               | Some _ => false
               end).
Proof.
  unfold updateOne.
  destruct (updateCNAME a zone domain w) as [[err|] w']; eexists; split;
    reflexivity.
Qed.

Lemma rangeDomains_passOver (zone : string) (domains : list string)
    (st : list LogEntry * W) :
  rangeDomains a zone domains st = passOver a (map (pair zone) domains) st.
Proof.
  unfold rangeDomains, passOver. revert st.
  induction domains as [|d ds IH]; intros st; [reflexivity |].
  cbn [map fold_left]. apply IH.
Qed.

Lemma rangeZones_passOver (order : list (string * list string))
    (st : list LogEntry * W) :
  rangeZones a order st = passOver a (targets order) st.
Proof.
  unfold rangeZones, targets. revert st.
  induction order as [|[z ds] order IH]; intros st; [reflexivity |].
  cbn [flat_map fold_left fst snd]. unfold passOver.
  rewrite fold_left_app. fold (passOver a (map (pair z) ds) st).
  rewrite <- rangeDomains_passOver. apply IH.
Qed.

Lemma attempts_snoc (log : list LogEntry) (e : LogEntry) z d ok :
  attempt_of e = Some (z, d, ok) ->
  attempts (log ++ [e]) = attempts log ++ [(z, d)]
  /\ outcomes (log ++ [e]) = outcomes log ++ [ok].
Proof.
  intros He. unfold attempts, outcomes. rewrite !omap_app. simpl.
  rewrite He. split; reflexivity.
Qed.

Lemma passOver_attempts (ts : list (string * string)) (log : list LogEntry) (w : W) :
  attempts (passOver a ts (log, w)).1 = attempts log ++ ts.
Proof.
  revert log w. induction ts as [|[z d] ts IH]; intros log w.
  - cbn. now rewrite app_nil_r.
  - unfold passOver. cbn [fold_left fst snd].
    destruct (updateOne_entry z d log w) as [e [-> He]].
    fold (passOver a ts (log ++ [e], (updateCNAME a z d w).2)).
    rewrite IH. destruct (attempts_snoc log e _ _ _ He) as [-> _].
    now rewrite <- app_assoc.
Qed.

Lemma passOver_outcomes_length (ts : list (string * string)) (log : list LogEntry) (w : W) :
  length (outcomes (passOver a ts (log, w)).1) = (length (outcomes log) + length ts)%nat.
Proof.
  revert log w. induction ts as [|[z d] ts IH]; intros log w.
  - unfold passOver. cbn [fold_left fst length]. lia.
  - unfold passOver. cbn [fold_left fst snd].
    destruct (updateOne_entry z d log w) as [e [-> He]].
    fold (passOver a ts (log ++ [e], (updateCNAME a z d w).2)).
    rewrite IH. destruct (attempts_snoc log e _ _ _ He) as [_ ->].
    rewrite length_app. cbn [length]. lia.
Qed.

Lemma updateDNS_passOver (order : list (string * list string)) (w : W) :
  updateDNS order a w
  = let st := passOver a (targets order)
                ([mkLog DebugLevel "beginning DNS update" []], w) in
    (st.1 ++ [mkLog InfoLevel "finished updating DNS" []], st.2).
Proof.
  unfold updateDNS. cbv zeta. rewrite rangeZones_passOver.
  now destruct (passOver a (targets order) _).
Qed.

Lemma attempts_closing (log : list LogEntry) :
  attempts (log ++ [mkLog InfoLevel "finished updating DNS" []]) = attempts log
  /\ outcomes (log ++ [mkLog InfoLevel "finished updating DNS" []]) = outcomes log.
Proof.
  unfold attempts, outcomes. rewrite !omap_app. cbn. now rewrite !app_nil_r.
Qed.

Lemma updateDNS_attempts (order : list (string * list string)) (w : W) :
  attempts (updateDNS order a w).1 = targets order.
Proof.
  rewrite updateDNS_passOver. cbn [fst].
  destruct (attempts_closing (passOver a (targets order)
             ([mkLog DebugLevel "beginning DNS update" []], w)).1) as [-> _].
  now rewrite passOver_attempts.
Qed.

Lemma updateDNS_outcomes_length (order : list (string * list string)) (w : W) :
  length (outcomes (updateDNS order a w).1) = length (targets order).
Proof.
  rewrite updateDNS_passOver. cbn [fst].
  destruct (attempts_closing (passOver a (targets order)
             ([mkLog DebugLevel "beginning DNS update" []], w)).1) as [_ ->].
  now rewrite passOver_outcomes_length.
Qed.
End Pass.

(** ** Counting *)

Section Count.
Context {A : Type} `{EqDecision A}.







End Count.




(** ** The scripted host *)

Lemma scripted_updateCNAME (a : App) (zone domain : string) (t : Transcript)
    (rest : list Transcript) (w : Remote) :
  script w = t :: rest ->
  let r := updateCNAME a zone domain w in
  match r.1 with None => true | Some _ => false end = succeeded t
  /\ script r.2 = rest.
Proof.
  intros Hs. unfold updateCNAME. cbn. unfold remote_dial. rewrite Hs.
  destruct t as [e|e|output [e|]]; cbn; unfold remote_session, remote_run; cbn;
    try (split; reflexivity).
  destruct (GoStrings.Contains output "Error"); split; reflexivity.
Qed.

Lemma scripted_passOver (a : App) (ts : list (string * string))
    (log : list LogEntry) (w : Remote) :
  (length ts <= length (script w))%nat ->
  let r := passOver a ts (log, w) in
  outcomes r.1 = outcomes log ++ map succeeded (take (length ts) (script w))
  /\ script r.2 = drop (length ts) (script w).
Proof.
  revert log w. induction ts as [|[z d] ts IH]; intros log w Hlen.
  - cbn. now rewrite app_nil_r.
  - destruct (script w) as [|t rest] eqn:Hs; [cbn in Hlen; lia |].
    cbn zeta. unfold passOver. cbn [fold_left fst snd].
    destruct (updateOne_entry a z d log w) as [e [-> He]].
    fold (passOver a ts (log ++ [e], (updateCNAME a z d w).2)).
    destruct (scripted_updateCNAME a z d t rest w Hs) as [Hok Hrest].
    cbn zeta in Hok, Hrest. rewrite Hok in He.
    destruct (IH (log ++ [e]) (updateCNAME a z d w).2) as [IHo IHs].
    { rewrite Hrest. cbn in Hlen. lia. }
    cbn zeta in IHo, IHs. rewrite IHo, IHs, Hrest.
    destruct (attempts_snoc log e _ _ _ He) as [_ ->].
    cbn [length take drop map]. now rewrite <- app_assoc.
Qed.

Lemma scripted_outcomes (a : App) (order : list (string * list string))
    (s : list Transcript) :
  length s = length (targets order) ->
  outcomes (updateDNS order a (fresh_remote s)).1 = map succeeded s.
Proof.
  intros Hlen. rewrite updateDNS_passOver. cbn [fst].
  destruct (attempts_closing (passOver a (targets order)
             ([mkLog DebugLevel "beginning DNS update" []], fresh_remote s)).1)
    as [_ ->].
  destruct (scripted_passOver a (targets order)
              [mkLog DebugLevel "beginning DNS update" []] (fresh_remote s))
    as [-> _].
  { cbn. lia. }
  cbn [fresh_remote script]. rewrite <- Hlen, firstn_all. reflexivity.
Qed.

(** Each update dials the host once, whatever the host then does. *)
Lemma scripted_dial_once (a : App) (zone domain : string) (w : Remote) :
  dialed (updateCNAME a zone domain w).2
  = dialed w ++ [("tcp", Host (DNSServer a) +:+ ":22", clientConfig a)].
Proof.
  unfold updateCNAME. cbn. unfold remote_dial.
  destruct (script w) as [|[e|e|output [e|]] rest]; cbn; try reflexivity;
    unfold remote_session, remote_run; cbn; try reflexivity.
  destruct (GoStrings.Contains output "Error"); reflexivity.
Qed.

Lemma scripted_passOver_dials (a : App) (ts : list (string * string))
    (log : list LogEntry) (w : Remote) :
  dialed (passOver a ts (log, w)).2
  = dialed w
    ++ map (fun _ => ("tcp", Host (DNSServer a) +:+ ":22", clientConfig a)) ts.
Proof.
  revert log w. induction ts as [|[z d] ts IH]; intros log w.
  - cbn. now rewrite app_nil_r.
  - unfold passOver. cbn [fold_left fst snd].
    destruct (updateOne_entry a z d log w) as [e [-> _]].
    fold (passOver a ts (log ++ [e], (updateCNAME a z d w).2)).
    rewrite IH, scripted_dial_once. cbn [map]. now rewrite <- app_assoc.
Qed.

Lemma scripted_dials (a : App) (order : list (string * list string))
    (s : list Transcript) :
  dialed (updateDNS order a (fresh_remote s)).2
  = map (fun _ => ("tcp", Host (DNSServer a) +:+ ":22", clientConfig a))
        (targets order).
Proof.
  rewrite updateDNS_passOver. cbn [snd]. now rewrite scripted_passOver_dials.
Qed.

(** The parser keeps a name that is written twice. *)
Lemma parseApp_keeps_duplicates :
  @parseApp byLine sample_Durations
    (NewDispenser (lex_lines [["dynamic_dns"; "{"];
                              ["domains"; "{"];
                              ["example.com"; "www"; "www"];
                              ["}"];
                              ["}"]]))
  = Ok (appWithDomains twiceWww).
Proof. vm_compute. reflexivity. Qed.




(** C3: a failed update does not end the pass.  Whatever the remote side
    does, the updates attempted by a pass are its targets, each once and in
    visiting order, and each has an outcome; a scripted host is dialled once
    for each target; and when it is scripted with one transcript per
    connection, the outcome of each target is the classification of its own
    transcript, whatever the transcripts of the other targets are. *)
Theorem updateDNS_isolation (a : App) (order : list (string * list string)) :
  (forall (W : Type) (ssh : SSH W) (w : W),
      attempts (updateDNS order a w).1 = targets order
      /\ length (outcomes (updateDNS order a w).1) = length (targets order))
  /\ (forall s : list Transcript,
        length (dialed (updateDNS order a (fresh_remote s)).2)
        = length (targets order))
  /\ (forall s : list Transcript,
        length s = length (targets order) ->
        outcomes (updateDNS order a (fresh_remote s)).1 = map succeeded s).
Proof.
  split; [| split].
  - intros W ssh w. split.
    + apply updateDNS_attempts.
    + apply updateDNS_outcomes_length.
  - intros s. now rewrite scripted_dials, length_map.
  - apply scripted_outcomes.
Qed.

Lemma updateDNS_isolation_witness :
  attempts (updateDNS threeTargets newApp (fresh_remote secondFails)).1
  = [("example.com", "a"); ("example.com", "b"); ("example.org", "c")]
  /\ outcomes (updateDNS threeTargets newApp (fresh_remote secondFails)).1
     = [true; false; true].
Proof.
  split.
  - exact (proj1 (proj1 (updateDNS_isolation newApp threeTargets)
                    Remote scripted_SSH (fresh_remote secondFails))).
  - exact (proj2 (proj2 (updateDNS_isolation newApp threeTargets))
             secondFails eq_refl).
Defined.

(** ** Discovery *)

Lemma map_get_insert (m : gmap string (list string)) (k k' : string) (v : list string) :
  map_get (Some (<[k := v]> m)) k'
  = if decide (k' = k) then v else map_get (Some m) k'.
Proof.
  unfold map_get. destruct (decide (k' = k)) as [->|Hne].
  - now rewrite lookup_insert_eq.
  - now rewrite lookup_insert_ne.
Qed.

Lemma map_get_default (d : option (gmap string (list string))) (k : string) :
  map_get (Some (default ∅ d)) k = map_get d k.
Proof. destruct d; [reflexivity |]. cbn. now rewrite lookup_empty. Qed.

(** What [appendLabels] does to the lists of the map. *)
Lemma map_get_appendLabels (ls : list string) (a : App) (z : string) :
  map_get (Domains (appendLabels ls a)) z
  = map_get (Domains a) z ++ (if decide (z = AutoCNAMEZone a) then ls else []).
Proof.
  destruct ls as [|l ls].
  - cbn [appendLabels]. destruct (decide _); now rewrite app_nil_r.
  - cbn [appendLabels set_Domains Domains]. rewrite map_get_insert, map_get_default.
    destruct (decide (z = AutoCNAMEZone a)) as [->|Hne];
      [reflexivity | now rewrite app_nil_r].
Qed.

Lemma appendLabels_zone (ls : list string) (a : App) :
  AutoCNAMEZone (appendLabels ls a) = AutoCNAMEZone a.
Proof. now destruct ls. Qed.

Lemma appendLabels_ctx (ls : list string) (a : App) :
  ctx (appendLabels ls a) = ctx a.
Proof. now destruct ls. Qed.

Lemma appendLabels_app (l1 l2 : list string) (a : App) :
  appendLabels l2 (appendLabels l1 a) = appendLabels (l1 ++ l2) a.
Proof.
  destruct l2 as [|y l2]; [now rewrite app_nil_r |].
  destruct l1 as [|x l1]; [reflexivity |].
  cbn [appendLabels app set_Domains Domains AutoCNAMEZone from_option id].
  rewrite map_get_insert, insert_insert_eq.
  destruct (decide _) as [_|Hne]; [| contradiction].
  now rewrite <- app_assoc.
Qed.

Lemma addHost_appendLabels (host : string) (a : App) :
  addHost host a = appendLabels [hostLabel (AutoCNAMEZone a) host] a.
Proof.
  unfold addHost, appendLabels, hostLabel.
  destruct (Domains a) as [m|] eqn:E; cbn [default]; reflexivity.
Qed.

Lemma rangeHosts_appendLabels (hosts : list string) (a : App) :
  rangeHosts hosts a = appendLabels (map (hostLabel (AutoCNAMEZone a)) hosts) a.
Proof.
  unfold rangeHosts. revert a.
  induction hosts as [|h hs IH]; intros a; [reflexivity |].
  cbn [fold_left map]. rewrite IH, addHost_appendLabels, appendLabels_zone.
  apply appendLabels_app.
Qed.

Lemma rangeMatchers_appendLabels (ms : MatcherSet) (a : App) :
  rangeMatchers ms a
  = appendLabels (map (hostLabel (AutoCNAMEZone a)) (flat_map matcherHosts ms)) a.
Proof.
  unfold rangeMatchers. revert a.
  induction ms as [|m ms IH]; intros a; [reflexivity |].
  cbn [fold_left flat_map]. rewrite IH, map_app.
  destruct m as [hosts|name]; cbn [matcherHosts].
  - rewrite rangeHosts_appendLabels, appendLabels_zone. apply appendLabels_app.
  - reflexivity.
Qed.

Lemma rangeMatcherSets_appendLabels (route : Route) (a : App) :
  rangeMatcherSets route a = appendLabels (routeLabels (AutoCNAMEZone a) route) a.
Proof.
  unfold rangeMatcherSets, routeLabels, routeHosts. revert a.
  induction (MatcherSets route) as [|ms mss IH]; intros a; [reflexivity |].
  cbn [fold_left flat_map]. rewrite IH, map_app.
  rewrite rangeMatchers_appendLabels, appendLabels_zone. apply appendLabels_app.
Qed.

Section Discovery.
Context `{JSON}.

Lemma decodes_or_malformed (raw : RawMessage) :
  malformed raw \/ exists handler, Unmarshal raw = inr handler.
Proof.
  unfold malformed. destruct (Unmarshal raw) as [e|h]; [left | right]; eauto.
Qed.

(** The handler loop appends names and nothing else, whether it ends with
    an error or not. *)
Lemma rangeHandlers_appends (route : Route) (raws : list RawMessage) (a : App) :
  exists ls, (rangeHandlers route raws a).1 = appendLabels ls a.
Proof.
  revert a. induction raws as [|raw raws IH]; intros a; cbn [rangeHandlers].
  - now exists [].
  - destruct (Unmarshal raw) as [e|h]; [now exists [] |].
    destruct (isReverseProxy h).
    + rewrite rangeMatcherSets_appendLabels.
      destruct (IH (appendLabels (routeLabels (AutoCNAMEZone a) route) a)) as [ls ->].
      rewrite appendLabels_app. eauto.
    + apply IH.
Qed.

Lemma rangeHandlers_malformed (route : Route) (raws : list RawMessage) (a : App) :
  (exists raw, raw ∈ raws /\ malformed raw) ->
  is_Some (rangeHandlers route raws a).2.
Proof.
  revert a. induction raws as [|raw raws IH]; intros a [bad [Hin Hbad]].
  - now apply elem_of_nil in Hin.
  - cbn [rangeHandlers]. destruct (Unmarshal raw) as [e|h] eqn:E; [now eexists |].
    apply IH. exists bad. split; [| exact Hbad].
    apply elem_of_cons in Hin as [->|Hin]; [| exact Hin].
    destruct Hbad as [e Hbad]. congruence.
Qed.

Lemma rangeHandlers_decoded (route : Route) (raws : list RawMessage) (a : App) :
  (forall raw, raw ∈ raws -> ~ malformed raw) ->
  rangeHandlers route raws a
  = (appendLabels (flat_map (handlerLabels (AutoCNAMEZone a) route) raws) a, None).
Proof.
  revert a. induction raws as [|raw raws IH]; intros a Hok; [reflexivity |].
  cbn [rangeHandlers flat_map]. unfold handlerLabels at 1.
  destruct (Unmarshal raw) as [e|h] eqn:E.
  { destruct (Hok raw); [apply list_elem_of_here | now exists e]. }
  rewrite IH by (intros r Hr; apply Hok; now apply list_elem_of_further).
  destruct (isReverseProxy h).
  - rewrite rangeMatcherSets_appendLabels, appendLabels_zone, appendLabels_app.
    reflexivity.
  - reflexivity.
Qed.

Lemma rangeRoutes_appends (routes : list Route) (a : App) :
  exists ls, (rangeRoutes routes a).1 = appendLabels ls a.
Proof.
  revert a. induction routes as [|route routes IH]; intros a; cbn [rangeRoutes].
  - now exists [].
  - destruct (rangeHandlers_appends route (HandlersRaw route) a) as [l1 H1].
    destruct (rangeHandlers route (HandlersRaw route) a) as [a1 [e|]];
      cbn [fst] in H1; subst a1.
    + now exists l1.
    + destruct (IH (appendLabels l1 a)) as [l2 ->].
      rewrite appendLabels_app. eauto.
Qed.

Lemma rangeRoutes_malformed (routes : list Route) (a : App) :
  (exists route raw, route ∈ routes /\ raw ∈ HandlersRaw route /\ malformed raw) ->
  is_Some (rangeRoutes routes a).2.
Proof.
  revert a. induction routes as [|route routes IH];
    intros a [bad [raw [Hin [Hraw Hbad]]]].
  - now apply elem_of_nil in Hin.
  - cbn [rangeRoutes].
    destruct (rangeHandlers route (HandlersRaw route) a) as [a1 [e|]] eqn:E;
      [now eexists |].
    apply elem_of_cons in Hin as [->|Hin].
    + pose proof (rangeHandlers_malformed route (HandlersRaw route) a
                    (ex_intro _ raw (conj Hraw Hbad))) as [e He].
      rewrite E in He. discriminate.
    + apply IH. eauto.
Qed.

Lemma rangeRoutes_decoded (routes : list Route) (a : App) :
  (forall route raw, route ∈ routes -> raw ∈ HandlersRaw route -> ~ malformed raw) ->
  rangeRoutes routes a
  = (appendLabels (flat_map (routeDiscovered (AutoCNAMEZone a)) routes) a, None).
Proof.
  revert a. induction routes as [|route routes IH]; intros a Hok; [reflexivity |].
  cbn [rangeRoutes flat_map].
  rewrite rangeHandlers_decoded
    by (intros raw Hraw; apply (Hok route raw); [apply list_elem_of_here | exact Hraw]).
  rewrite IH
    by (intros r raw Hr; apply Hok; now apply list_elem_of_further).
  rewrite appendLabels_zone, appendLabels_app. reflexivity.
Qed.

Lemma rangeServers_appends (servers : list Server) (a : App) :
  exists ls, (rangeServers servers a).1 = appendLabels ls a.
Proof.
  revert a. induction servers as [|server servers IH]; intros a; cbn [rangeServers].
  - now exists [].
  - destruct (rangeRoutes_appends (Routes server) a) as [l1 H1].
    destruct (rangeRoutes (Routes server) a) as [a1 [e|]];
      cbn [fst] in H1; subst a1.
    + now exists l1.
    + destruct (IH (appendLabels l1 a)) as [l2 ->].
      rewrite appendLabels_app. eauto.
Qed.

Lemma rangeServers_malformed (servers : list Server) (a : App) :
  malformedIn servers -> is_Some (rangeServers servers a).2.
Proof.
  revert a. induction servers as [|server servers IH];
    intros a [bad [route [raw [Hin [Hroute [Hraw Hbad]]]]]].
  - now apply elem_of_nil in Hin.
  - cbn [rangeServers].
    destruct (rangeRoutes (Routes server) a) as [a1 [e|]] eqn:E; [now eexists |].
    apply elem_of_cons in Hin as [->|Hin].
    + pose proof (rangeRoutes_malformed (Routes server) a
                    (ex_intro _ route (ex_intro _ raw (conj Hroute (conj Hraw Hbad)))))
        as [e He].
      rewrite E in He. discriminate.
    + apply IH. exists bad, route, raw. eauto.
Qed.

Lemma rangeServers_decoded (servers : list Server) (a : App) :
  ~ malformedIn servers ->
  rangeServers servers a
  = (appendLabels (discovered (AutoCNAMEZone a) servers) a, None).
Proof.
  revert a. induction servers as [|server servers IH]; intros a Hok; [reflexivity |].
  cbn [rangeServers]. unfold discovered. cbn [flat_map].
  rewrite rangeRoutes_decoded.
  2:{ intros route raw Hroute Hraw Hbad. apply Hok.
      exists server, route, raw. repeat split; auto. apply list_elem_of_here. }
  fold (discovered (AutoCNAMEZone a) servers).
  rewrite IH.
  2:{ intros [s [route [raw [Hs Hrest]]]]. apply Hok.
      exists s, route, raw. split; [now apply list_elem_of_further | exact Hrest]. }
  rewrite appendLabels_zone, appendLabels_app. reflexivity.
Qed.

(** A pass of the loops without error means that every handler decoded. *)
Lemma rangeServers_no_error (servers : list Server) (a : App) :
  (rangeServers servers a).2 = None -> ~ malformedIn servers.
Proof.
  intros Hnone Hbad. destruct (rangeServers_malformed servers a Hbad) as [e He].
  congruence.
Qed.

Lemma malformedIn_Permutation (s1 s2 : list Server) :
  s1 ≡ₚ s2 -> malformedIn s1 -> malformedIn s2.
Proof.
  intros Hp [server [route [raw [Hin Hrest]]]].
  exists server, route, raw. split; [now rewrite <- Hp | exact Hrest].
Qed.

Lemma discovered_Permutation (zone : string) (s1 s2 : list Server) :
  s1 ≡ₚ s2 -> discovered zone s1 ≡ₚ discovered zone s2.
Proof. intros Hp. unfold discovered. now apply Permutation_flat_map. Qed.

End Discovery.

Section DiscoveryStep.
Context `{JSON}.

Lemma addReverseProxyCNAMEs_appends (order : list (string * Server)) (a : App) :
  exists ls, (addReverseProxyCNAMEs order a).1 = appendLabels ls a.
Proof.
  unfold addReverseProxyCNAMEs.
  destruct (ctxHTTPApp (ctx a)) as [e|httpApp]; [now exists [] |].
  apply rangeServers_appends.
Qed.

Lemma addReverseProxyCNAMEs_malformed (order : list (string * Server)) (a : App) :
  servers_order a order -> snapshotMalformed a ->
  is_Some (addReverseProxyCNAMEs order a).2.
Proof.
  unfold servers_order, snapshotMalformed, addReverseProxyCNAMEs, range_of.
  destruct (ctxHTTPApp (ctx a)) as [e|httpApp]; [contradiction |].
  intros Hp Hbad. apply rangeServers_malformed.
  apply (malformedIn_Permutation (map_to_list (Servers httpApp)).*2); [| exact Hbad].
  now rewrite Hp.
Qed.

Lemma addReverseProxyCNAMEs_succeeds (order : list (string * Server)) (a : App) :
  (addReverseProxyCNAMEs order a).2 = None ->
  ~ malformedIn order.*2
  /\ (exists httpApp, ctxHTTPApp (ctx a) = inr httpApp)
  /\ (addReverseProxyCNAMEs order a).1
     = appendLabels (discovered (AutoCNAMEZone a) order.*2) a.
Proof.
  unfold addReverseProxyCNAMEs.
  destruct (ctxHTTPApp (ctx a)) as [e|httpApp]; [discriminate |].
  intros Hnone. pose proof (rangeServers_no_error _ _ Hnone) as Hok.
  split; [exact Hok | split; [eauto |]].
  now rewrite rangeServers_decoded.
Qed.


(** C7 (amended): for every routing snapshot containing at least one
    handler that does not decode, the discovery step returns an error and
    start-up fails without launching the loop; the DomainMap keeps what it
    held, and the names of the reverse-proxy routes visited before the
    error may already have been appended to the list of the auto-discovery
    zone. *)
Theorem discovery_malformed_fails (a : App) (order : list (string * Server)) :
  servers_order a order ->
  snapshotMalformed a ->
  is_Some (addReverseProxyCNAMEs order a).2
  /\ (exists added, forall z,
        map_get (Domains (addReverseProxyCNAMEs order a).1) z
        = map_get (Domains a) z
          ++ (if decide (z = AutoCNAMEZone a) then added else []))
  /\ (AutoCNAMEZone a <> "" ->
      is_Some (Start order a).1.2 /\ (Start order a).2 = false).
Proof.
  intros Hord Hbad.
  pose proof (addReverseProxyCNAMEs_malformed order a Hord Hbad) as Herr.
  split; [exact Herr | split].
  - destruct (addReverseProxyCNAMEs_appends order a) as [ls ->].
    exists ls. intros z. apply map_get_appendLabels.
  - intros Hzone. unfold Start.
    destruct (String.eqb_spec (AutoCNAMEZone a) "") as [E|_]; [contradiction |].
    cbn [negb]. destruct (addReverseProxyCNAMEs order a) as [a' [e|]].
    + split; [now eexists | reflexivity].
    + destruct Herr as [e He]. discriminate.
Qed.

(** C8 (amended): when discovery succeeds on a routing snapshot and a
    starting DomainMap, running it a second time succeeds too and every
    zone holds the same names after the second run as after the first;
    the lists themselves differ, the second run appends each discovered
    name once more. *)
Theorem discovery_twice_same_names (a : App) (order1 order2 : list (string * Server)) :
  servers_order a order1 ->
  servers_order a order2 ->
  (addReverseProxyCNAMEs order1 a).2 = None ->
  (addReverseProxyCNAMEs order2 (addReverseProxyCNAMEs order1 a).1).2 = None
  /\ (forall z,
        map_get (Domains (addReverseProxyCNAMEs order2
                            (addReverseProxyCNAMEs order1 a).1).1) z
        = map_get (Domains (addReverseProxyCNAMEs order1 a).1) z
          ++ (if decide (z = AutoCNAMEZone a)
              then discovered (AutoCNAMEZone a) order2.*2 else []))
  /\ (forall z n,
        n ∈ map_get (Domains (addReverseProxyCNAMEs order2
                                (addReverseProxyCNAMEs order1 a).1).1) z
        <-> n ∈ map_get (Domains (addReverseProxyCNAMEs order1 a).1) z).
Proof.
  intros Ho1 Ho2 Hnone.
  destruct (addReverseProxyCNAMEs_succeeds order1 a Hnone)
    as [Hok [[httpApp Hctx] Hrun1]].
  assert (Hperm : order1.*2 ≡ₚ order2.*2).
  { unfold servers_order, range_of in Ho1, Ho2. rewrite Hctx in Ho1, Ho2.
    now rewrite Ho1, Ho2. }
  assert (Hok2 : ~ malformedIn order2.*2).
  { intros Hbad. apply Hok.
    now apply (malformedIn_Permutation order2.*2). }
  assert (Hrun2 : addReverseProxyCNAMEs order2 (addReverseProxyCNAMEs order1 a).1
                  = (appendLabels (discovered (AutoCNAMEZone a) order2.*2)
                       (addReverseProxyCNAMEs order1 a).1, None)).
  { rewrite Hrun1. unfold addReverseProxyCNAMEs at 1.
    rewrite appendLabels_ctx, Hctx.
    rewrite (rangeServers_decoded _ _ Hok2).
    now rewrite appendLabels_zone. }
  rewrite Hrun2. cbn [fst snd].
  assert (Hlists : forall z,
    map_get (Domains (appendLabels (discovered (AutoCNAMEZone a) order2.*2)
                        (addReverseProxyCNAMEs order1 a).1)) z
    = map_get (Domains (addReverseProxyCNAMEs order1 a).1) z
      ++ (if decide (z = AutoCNAMEZone a)
          then discovered (AutoCNAMEZone a) order2.*2 else [])).
  { intros z. rewrite map_get_appendLabels.
    assert (AutoCNAMEZone (addReverseProxyCNAMEs order1 a).1 = AutoCNAMEZone a)
      as -> by (rewrite Hrun1; apply appendLabels_zone).
    reflexivity. }
  split; [reflexivity | split; [exact Hlists |]].
  intros z n. rewrite Hlists, Hrun1, map_get_appendLabels.
  destruct (decide (z = AutoCNAMEZone a)) as [->|Hne];
    [| now rewrite !app_nil_r].
  rewrite !elem_of_app.
  rewrite <- (discovered_Permutation (AutoCNAMEZone a) _ _ Hperm). tauto.
Qed.

End DiscoveryStep.

(** The example snapshots. *)
Lemma servers_order_discoveryApp (zone : string) (routes : list Route) :
  servers_order (discoveryApp zone routes) (oneServer routes).
Proof.
  unfold servers_order, range_of, discoveryApp, oneServer. cbn.
  now rewrite map_to_list_singleton.
Qed.

Lemma snapshotMalformed_discoveryApp `{JSON} (zone : string) (routes : list Route)
    (route : Route) (raw : RawMessage) :
  route ∈ routes -> raw ∈ HandlersRaw route -> malformed raw ->
  snapshotMalformed (discoveryApp zone routes).
Proof.
  intros Hroute Hraw Hbad. unfold snapshotMalformed, discoveryApp. cbn.
  rewrite map_to_list_singleton. exists (mkServer routes), route, raw.
  repeat split; auto. cbn. apply list_elem_of_here.
Qed.

Lemma sample_brokenRoute_malformed : @malformed sample_JSON "{".
Proof. now exists "invalid character". Qed.


(** C7, as the claim states it, fails on the code: the names of a route
    visited before the handler that does not decode stay in the DomainMap
    when the step returns its error. *)
Lemma discovery_error_keeps_partial_names :
  @snapshotMalformed sample_JSON
     (discoveryApp "example.com" [proxyRoute ["api.example.com"]; brokenRoute])
  /\ Domains (discoveryApp "example.com" [proxyRoute ["api.example.com"]; brokenRoute])
     = None
  /\ @addReverseProxyCNAMEs sample_JSON
       (oneServer [proxyRoute ["api.example.com"]; brokenRoute])
       (discoveryApp "example.com" [proxyRoute ["api.example.com"]; brokenRoute])
     = (set_ctx (ctx (discoveryApp "example.com"
                         [proxyRoute ["api.example.com"]; brokenRoute]))
          (set_AutoCNAMEZone "example.com"
             (appWithDomains {[ "example.com" := ["api"] ]})),
        Some "failed to unmarshal handler: invalid character").
Proof.
  split; [| split].
  - apply (snapshotMalformed_discoveryApp _ _ brokenRoute "{").
    + apply list_elem_of_further, list_elem_of_here.
    + apply list_elem_of_here.
    + apply sample_brokenRoute_malformed.
  - reflexivity.
  - vm_compute. reflexivity.
Qed.

Lemma discovery_malformed_fails_witness :
  is_Some (@addReverseProxyCNAMEs sample_JSON
             (oneServer [proxyRoute ["api.example.com"]; brokenRoute])
             (discoveryApp "example.com" [proxyRoute ["api.example.com"]; brokenRoute])).2.
Proof.
  apply (@discovery_malformed_fails sample_JSON
           (discoveryApp "example.com" [proxyRoute ["api.example.com"]; brokenRoute])
           (oneServer [proxyRoute ["api.example.com"]; brokenRoute])).
  - apply servers_order_discoveryApp.
  - apply (snapshotMalformed_discoveryApp _ _ brokenRoute "{").
    + apply list_elem_of_further, list_elem_of_here.
    + apply list_elem_of_here.
    + apply sample_brokenRoute_malformed.
Defined.

(** C8, as the claim states it, fails on the code: a second run appends the
    discovered name again, so the DomainMap after two runs is not the
    DomainMap after one. *)
Lemma discovery_twice_appends_again :
  Domains (@addReverseProxyCNAMEs sample_JSON
             (oneServer [proxyRoute ["api.example.com"]])
             (discoveryApp "example.com" [proxyRoute ["api.example.com"]])).1
  = Some {[ "example.com" := ["api"] ]}
  /\ Domains (@addReverseProxyCNAMEs sample_JSON
                (oneServer [proxyRoute ["api.example.com"]])
                (@addReverseProxyCNAMEs sample_JSON
                   (oneServer [proxyRoute ["api.example.com"]])
                   (discoveryApp "example.com" [proxyRoute ["api.example.com"]])).1).1
     = Some {[ "example.com" := ["api"; "api"] ]}
  /\ Domains (@addReverseProxyCNAMEs sample_JSON
                (oneServer [proxyRoute ["api.example.com"]])
                (@addReverseProxyCNAMEs sample_JSON
                   (oneServer [proxyRoute ["api.example.com"]])
                   (discoveryApp "example.com" [proxyRoute ["api.example.com"]])).1).1
     <> Domains (@addReverseProxyCNAMEs sample_JSON
                   (oneServer [proxyRoute ["api.example.com"]])
                   (discoveryApp "example.com" [proxyRoute ["api.example.com"]])).1.
Proof.
  split; [| split].
  - vm_compute. reflexivity.
  - vm_compute. reflexivity.
  - intros E. apply (f_equal (fun d => map_get d "example.com")) in E.
    vm_compute in E. discriminate.
Qed.

Lemma discovery_twice_same_names_witness :
  (@addReverseProxyCNAMEs sample_JSON
     (oneServer [proxyRoute ["api.example.com"]])
     (@addReverseProxyCNAMEs sample_JSON
        (oneServer [proxyRoute ["api.example.com"]])
        (discoveryApp "example.com" [proxyRoute ["api.example.com"]])).1).2
  = None.
Proof.
  apply (@discovery_twice_same_names sample_JSON
           (discoveryApp "example.com" [proxyRoute ["api.example.com"]])
           (oneServer [proxyRoute ["api.example.com"]])
           (oneServer [proxyRoute ["api.example.com"]])).
  - apply servers_order_discoveryApp.
  - apply servers_order_discoveryApp.
  - vm_compute. reflexivity.
Defined.

(** A host under the zone is stored as its label ... *)
Lemma hostLabel_under_zone (zone label : string) :
  hostLabel zone (label +:+ "." +:+ zone) = label.
Proof. apply GoStringsFacts.TrimSuffix_append. Qed.

(** ... the zone itself is stored whole ... *)
Lemma hostLabel_apex (zone : string) : hostLabel zone zone = zone.
Proof.
  apply GoStringsFacts.TrimSuffix_short.
  rewrite GoStringsFacts.length_append. cbn. lia.
Qed.

(** ... and so is every host that does not end with [.<zone>]. *)
Lemma hostLabel_outside_zone (zone host : string) :
  (forall label, host <> label +:+ "." +:+ zone) -> hostLabel zone host = host.
Proof. apply GoStringsFacts.TrimSuffix_other. Qed.



(** ** The dispenser *)

Lemma results_impl {A : Type} (P Q : A -> Prop) (r : Parsed A) :
  (forall a, P a -> Q a) -> results P r -> results Q r.
Proof. intros HPQ. destruct r; cbn; auto. Qed.

Lemma advances_refl (d : Dispenser) : onToken d -> advances d d.
Proof. intros Hd. repeat split; [apply Hd | apply Hd | lia]. Qed.

Lemma advances_trans (d1 d2 d3 : Dispenser) :
  advances d1 d2 -> advances d2 d3 -> advances d1 d3.
Proof.
  intros (Ht1 & _ & Hc1) (Ht2 & Hon & Hc2).
  repeat split; [congruence | apply Hon | apply Hon | lia].
Qed.

Lemma advances_set_nesting (d d' : Dispenser) (n : Z) :
  advances d d' -> advances d (set_nesting n d').
Proof. intros (Ht & Hon & Hc). repeat split; cbn; auto; apply Hon. Qed.

Lemma advances_remaining (d d' : Dispenser) :
  advances d d' -> (remaining d' <= remaining d)%nat.
Proof.
  intros (Ht & Hon & Hc). unfold remaining, ntokens. rewrite Ht. lia.
Qed.

Lemma advances_remaining_lt (d d' : Dispenser) :
  advances d d' -> cursor d < cursor d' -> (remaining d' < remaining d)%nat.
Proof.
  intros (Ht & Hon & Hc) Hlt. unfold remaining, onToken, ntokens in *.
  rewrite Ht in *. lia.
Qed.

Lemma remaining_bound (d : Dispenser) :
  onToken d -> (remaining d < loop_bound d)%nat.
Proof. unfold onToken, remaining, loop_bound, ntokens. lia. Qed.

Ltac step_tac :=
  unfold advances, onToken, ntokens, set_cursor, set_nesting in *;
  cbn [tokens cursor nesting] in *;
  repeat match goal with
         | Hc : _ /\ _ |- _ => destruct Hc
         end;
  repeat match goal with
         | Ht : tokens ?x = tokens ?y |- _ => rewrite Ht in *; clear Ht
         end;
  repeat split; try reflexivity; try lia.

Section Dispenser.
Context `{Layout}.

Lemma Next_advances (d d' : Dispenser) (b : bool) :
  onToken d -> Next d = (b, d') ->
  advances d d' /\ (b = true -> cursor d < cursor d').
Proof.
  intros Hd. unfold Next.
  destruct (Z.ltb_spec (cursor d) (ntokens d - 1)); intros [= <- <-];
    split; try discriminate; step_tac.
Qed.

Lemma nextOnSameLine_advances (d d' : Dispenser) (b : bool) :
  onToken d -> nextOnSameLine d = (b, d') ->
  advances d d' /\ (b = true -> cursor d < cursor d').
Proof.
  intros Hd. unfold nextOnSameLine.
  destruct (Z.ltb_spec (cursor d) 0); [unfold onToken in Hd; lia |].
  destruct (Z.leb_spec (ntokens d - 1) (cursor d)).
  { intros [= <- <-]. split; [step_tac | discriminate]. }
  destruct (tokens d !! Z.to_nat (cursor d)) as [curr|];
    [| intros [= <- <-]; split; [step_tac | discriminate]].
  destruct (tokens d !! Z.to_nat (cursor d + 1)) as [next|];
    [| intros [= <- <-]; split; [step_tac | discriminate]].
  destruct (negb (isNextOnNewLine curr next)); intros [= <- <-];
    split; try discriminate; step_tac.
Qed.

Lemma NextArg_advances (d d' : Dispenser) (b : bool) :
  onToken d -> NextArg d = (b, d') ->
  advances d d' /\ (b = true -> cursor d < cursor d').
Proof.
  intros Hd. unfold NextArg.
  destruct (nextOnSameLine d) as [same d1] eqn:E.
  apply nextOnSameLine_advances in E as [Ha Hlt]; [| exact Hd].
  destruct same.
  - specialize (Hlt eq_refl).
    destruct (String.eqb (Val d1) "{"); intros [= <- <-].
    + split; [| discriminate]. step_tac.
    + split; [exact Ha | intros _; exact Hlt].
  - intros [= <- <-]. split; [exact Ha | discriminate].
Qed.

Lemma braceEndsLine_advances (brace : string) (d d' : Dispenser) (b : bool) :
  onToken d -> braceEndsLine brace d = (b, d') -> advances d d'.
Proof.
  intros Hd. unfold braceEndsLine.
  destruct (String.eqb (Val d) brace).
  - destruct (nextOnSameLine d) as [same d1] eqn:E.
    apply nextOnSameLine_advances in E as [Ha _]; [| exact Hd].
    now intros [= <- <-].
  - intros [= <- <-]. now apply advances_refl.
Qed.

Lemma NextBlock_advances (lvl : Z) (d d' : Dispenser) (b : bool) :
  onToken d -> NextBlock lvl d = (b, d') ->
  advances d d' /\ (b = true -> cursor d < cursor d').
Proof.
  intros Hd. unfold NextBlock. destruct (lvl <? nesting d).
  - destruct (Next d) as [more d1] eqn:E1.
    apply Next_advances in E1 as [Ha1 Hlt1]; [| exact Hd].
    destruct more; [| intros [= <- <-]; split; [exact Ha1 | discriminate]].
    specialize (Hlt1 eq_refl).
    assert (Hon1 : onToken d1) by apply Ha1.
    destruct (braceEndsLine "}" d1) as [c1 d2] eqn:E2.
    apply braceEndsLine_advances in E2; [| exact Hon1].
    assert (Hon2 : onToken d2) by apply E2.
    destruct c1.
    + intros [= <- <-]. split.
      * apply advances_set_nesting. eapply advances_trans; eauto.
      * intros _. cbn. destruct E2 as (_ & _ & ?). lia.
    + destruct (braceEndsLine "{" d2) as [c2 d3] eqn:E3.
      apply braceEndsLine_advances in E3; [| exact Hon2].
      assert (Ha3 : advances d d3)
        by (eapply advances_trans; [exact Ha1 |];
            eapply advances_trans; eauto).
      assert (Hc3 : cursor d < cursor d3)
        by (destruct E2 as (_ & _ & ?), E3 as (_ & _ & ?); lia).
      destruct c2; intros [= <- <-].
      * split; [now apply advances_set_nesting | intros _; exact Hc3].
      * split; [exact Ha3 | intros _; exact Hc3].
  - destruct (nextOnSameLine d) as [same d1] eqn:E1.
    apply nextOnSameLine_advances in E1 as [Ha1 Hlt1]; [| exact Hd].
    destruct same; [| intros [= <- <-]; split; [exact Ha1 | discriminate]].
    specialize (Hlt1 eq_refl).
    assert (Hon1 : onToken d1) by apply Ha1.
    destruct (negb (String.eqb (Val d1) "{")).
    { intros [= <- <-]. split; [| discriminate]. step_tac. }
    destruct (Next d1) as [more d2] eqn:E2.
    apply Next_advances in E2 as [Ha2 _]; [| exact Hon1].
    cbn [snd].
    assert (Ha : advances d d2) by (eapply advances_trans; eauto).
    assert (Hc : cursor d < cursor d2) by (destruct Ha2 as (_ & _ & ?); lia).
    destruct (String.eqb (Val d2) "}"); intros [= <- <-].
    + split; [exact Ha | discriminate].
    + split; [now apply advances_set_nesting | intros _; exact Hc].
Qed.

(** What the two argument steps do to the dispenser. *)
Lemma nextOnSameLine_cases (d d' : Dispenser) (b : bool) :
  nextOnSameLine d = (b, d') ->
  d' = if b then set_cursor (cursor d + 1) d else d.
Proof.
  unfold nextOnSameLine.
  destruct (cursor d <? 0); [now intros [= <- <-] |].
  destruct (ntokens d - 1 <=? cursor d); [now intros [= <- <-] |].
  destruct (tokens d !! Z.to_nat (cursor d)); [| now intros [= <- <-]].
  destruct (tokens d !! Z.to_nat (cursor d + 1)); [| now intros [= <- <-]].
  destruct (negb _); now intros [= <- <-].
Qed.

Lemma NextArg_cases (d d' : Dispenser) (b : bool) :
  NextArg d = (b, d') ->
  if b then d' = set_cursor (cursor d + 1) d
  else tokens d' = tokens d /\ cursor d' = cursor d /\ nesting d' = nesting d.
Proof.
  unfold NextArg. destruct (nextOnSameLine d) as [same d1] eqn:E.
  apply nextOnSameLine_cases in E. destruct same; subst d1.
  - destruct (String.eqb _ "{"); intros [= <- <-]; [| reflexivity].
    cbn. repeat split. lia.
  - now intros [= <- <-].
Qed.

(** [RemainingArgs] ends within its bound. *)
Lemma RemainingArgs_loop_ends (fuel : nat) (d : Dispenser) (args : list string) :
  onToken d -> (remaining d < fuel)%nat ->
  exists args' d', RemainingArgs_loop fuel d args = Some (args', d')
                   /\ advances d d'.
Proof.
  revert d args. induction fuel as [|fuel IH]; intros d args Hd Hfuel; [lia |].
  cbn [RemainingArgs_loop].
  destruct (NextArg d) as [more d1] eqn:E.
  apply NextArg_advances in E as [Ha Hlt]; [| exact Hd].
  destruct more.
  - destruct (IH d1 (args ++ [Val d1])) as (args' & d' & -> & Ha').
    + apply Ha.
    + pose proof (advances_remaining_lt d d1 Ha (Hlt eq_refl)). lia.
    + exists args', d'. split; [reflexivity |]. eapply advances_trans; eauto.
  - exists args, d1. split; [reflexivity | exact Ha].
Qed.

Lemma RemainingArgs_ends (d : Dispenser) :
  onToken d ->
  exists args d', RemainingArgs d = Some (args, d') /\ advances d d'.
Proof.
  intros Hd. apply RemainingArgs_loop_ends; [exact Hd |].
  now apply remaining_bound.
Qed.

(** A refused argument leaves the dispenser on the token it was on, and
    that token has no argument after it. *)
Lemma NextArg_refused (d d' : Dispenser) :
  onToken d -> NextArg d = (false, d') ->
  Val d' = Val d /\ argFollows (tokens d) (Z.to_nat (cursor d)) = false.
Proof.
  intros Hd. unfold NextArg, nextOnSameLine, argFollows.
  destruct (Z.ltb_spec (cursor d) 0); [unfold onToken in Hd; lia |].
  replace (S (Z.to_nat (cursor d))) with (Z.to_nat (cursor d + 1)) by lia.
  destruct (Z.leb_spec (ntokens d - 1) (cursor d)).
  { intros [= <-]. split; [reflexivity |].
    destruct (tokens d !! Z.to_nat (cursor d)); [| reflexivity].
    rewrite (proj2 (lookup_ge_None (tokens d) (Z.to_nat (cursor d + 1))));
      [reflexivity | unfold ntokens in *; lia]. }
  destruct (tokens d !! Z.to_nat (cursor d)) as [curr|];
    [| intros [= <-]; now split].
  destruct (tokens d !! Z.to_nat (cursor d + 1)) as [next|] eqn:Enext;
    [| intros [= <-]; now split].
  destruct (isNextOnNewLine curr next); cbn [negb andb].
  { intros [= <-]. now split. }
  assert (HV : Val (set_cursor (cursor d + 1) d) = Text next).
  { unfold Val, ntokens. cbn [cursor tokens set_cursor]. rewrite Enext.
    destruct (Z.ltb_spec (cursor d + 1) 0); [lia |].
    destruct (Z.leb_spec (Z.of_nat (length (tokens d))) (cursor d + 1));
      [unfold ntokens in *; lia | reflexivity]. }
  rewrite HV. destruct (String.eqb (Text next) "{"); [| discriminate].
  intros [= <-]. split; [| reflexivity].
  unfold Val, ntokens. cbn [cursor tokens set_cursor].
  now replace (cursor d + 1 - 1) with (cursor d) by lia.
Qed.

(** A dispenser whose current text is not empty is on a token with that
    text. *)
Lemma Val_token (d : Dispenser) :
  Val d <> "" ->
  exists t, tokens d !! Z.to_nat (cursor d) = Some t /\ Text t = Val d.
Proof.
  unfold Val. destruct ((cursor d <? 0) || (ntokens d <=? cursor d));
    [congruence |].
  destruct (tokens d !! Z.to_nat (cursor d)) as [t|]; [eauto | congruence].
Qed.

End Dispenser.

(** ** The parser *)

Lemma appendNames_zone (zone : string) (names : list string) (app : App) :
  AutoCNAMEZone (appendNames zone names app) = AutoCNAMEZone app.
Proof. reflexivity. Qed.

Section Parser.
Context `{Layout} `{Durations}.

(** The [domains] block ends, and leaves [AutoCNAMEZone] alone. *)
Lemma domainsLoop_results (fuel : nat) (lvl : Z) (d : Dispenser) (app : App) :
  onToken d -> (remaining d < fuel)%nat ->
  results (fun r => advances d r.1 /\ AutoCNAMEZone r.2 = AutoCNAMEZone app)
          (domainsLoop fuel lvl d app).
Proof.
  revert d app. induction fuel as [|fuel IH]; intros d app Hd Hfuel; [lia |].
  cbn [domainsLoop].
  destruct (NextBlock lvl d) as [more d1] eqn:E.
  apply NextBlock_advances in E as [Ha Hlt]; [| exact Hd].
  destruct more; [| cbn; split; [exact Ha | reflexivity]].
  destruct (String.eqb (Val d1) ""); [exact I |].
  destruct (RemainingArgs_ends d1) as (names & d2 & -> & Ha2); [apply Ha |].
  pose proof (advances_remaining_lt d d1 Ha (Hlt eq_refl)) as Hr1.
  pose proof (advances_remaining d1 d2 Ha2) as Hr2.
  eapply results_impl; [| apply IH; [apply Ha2 | lia]].
  intros [d' app'] [Ha' Hz]. cbn [fst snd] in *. split.
  - eapply advances_trans; [exact Ha |]. eapply advances_trans; eauto.
  - rewrite Hz. apply appendNames_zone.
Qed.

Lemma dnsServerProperty_results (d : Dispenser) (app : App) :
  onToken d ->
  results (fun r => advances d r.1 /\ AutoCNAMEZone r.2 = AutoCNAMEZone app)
          (dnsServerProperty d app).
Proof.
  intros Hd. unfold dnsServerProperty.
  destruct (String.eqb (Val d) "host");
    [| destruct (String.eqb (Val d) "user");
       [| destruct (String.eqb (Val d) "password"); [| exact I]]];
    (destruct (NextArg d) as [more d1] eqn:E;
     apply NextArg_advances in E as [Ha _]; [| exact Hd];
     destruct more; [split; [exact Ha | reflexivity] | exact I]).
Qed.

(** The [dns_server] block ends, and leaves [AutoCNAMEZone] alone. *)
Lemma dnsServerLoop_results (fuel : nat) (lvl : Z) (d : Dispenser) (app : App) :
  onToken d -> (remaining d < fuel)%nat ->
  results (fun r => advances d r.1 /\ AutoCNAMEZone r.2 = AutoCNAMEZone app)
          (dnsServerLoop fuel lvl d app).
Proof.
  revert d app. induction fuel as [|fuel IH]; intros d app Hd Hfuel; [lia |].
  cbn [dnsServerLoop].
  destruct (NextBlock lvl d) as [more d1] eqn:E.
  apply NextBlock_advances in E as [Ha Hlt]; [| exact Hd].
  destruct more; [| cbn; split; [exact Ha | reflexivity]].
  pose proof (dnsServerProperty_results d1 app (proj1 (proj2 Ha))) as Hp.
  destruct (dnsServerProperty d1 app) as [[d2 app2]| |]; [| exact I | exact Hp].
  cbn [results fst snd] in Hp. destruct Hp as [Ha2 Hz2].
  pose proof (advances_remaining_lt d d1 Ha (Hlt eq_refl)) as Hr1.
  pose proof (advances_remaining d1 d2 Ha2) as Hr2.
  eapply results_impl; [| apply IH; [apply Ha2 | lia]].
  intros [d' app'] [Ha' Hz]. cbn [fst snd] in *. split.
  - eapply advances_trans; [exact Ha |]. eapply advances_trans; eauto.
  - congruence.
Qed.

Lemma durationArg_results (d : Dispenser) :
  onToken d -> results (fun r => advances d r.1) (durationArg d).
Proof.
  intros Hd. unfold durationArg.
  destruct (NextArg d) as [more d1] eqn:E.
  apply NextArg_advances in E as [Ha _]; [| exact Hd].
  destruct more; [| exact I].
  destruct (ParseDuration (Val d1)); [exact I | exact Ha].
Qed.

(** The [auto_cname] case of the switch: an argument is consumed and
    nothing is stored; without argument the word [auto_cname] itself is
    stored. *)
Lemma directive_auto_cname (d : Dispenser) (app : App) :
  onToken d -> Val d = "auto_cname" ->
  match NextArg d with
  | (true, d') =>
      directive d app = Ok (d', app) /\ cursor d' = cursor d + 1
  | (false, d') =>
      directive d app = Ok (d', set_AutoCNAMEZone "auto_cname" app)
      /\ cursor d' = cursor d
      /\ argFollows (tokens d) (Z.to_nat (cursor d)) = false
  end.
Proof.
  intros Hd HV. unfold directive. rewrite HV. cbn [String.eqb Ascii.eqb Bool.eqb].
  destruct (NextArg d) as [more d'] eqn:E.
  pose proof (NextArg_cases d d' more E) as Hc. destruct more.
  - subst d'. split; reflexivity.
  - destruct (NextArg_refused d d' Hd E) as [HV' Hno].
    rewrite HV', HV. split; [reflexivity | split; [apply Hc | exact Hno]].
Qed.

(** One round of the outer loop ends; it either leaves [AutoCNAMEZone]
    alone or stores the word [auto_cname] for a token without argument. *)
Lemma directive_results (toks : list Token) (d : Dispenser) (app : App) :
  onToken d -> tokens d = toks ->
  results (fun r => advances d r.1
                    /\ (AutoCNAMEZone r.2 = AutoCNAMEZone app
                        \/ (AutoCNAMEZone r.2 = "auto_cname"
                            /\ auto_cname_bare toks)))
          (directive d app).
Proof.
  intros Hd Htoks. unfold directive.
  destruct (String.eqb (Val d) "domains").
  { eapply results_impl;
      [| apply domainsLoop_results; [exact Hd | now apply remaining_bound]].
    intros r [Ha Hz]. auto. }
  destruct (String.eqb (Val d) "check_interval").
  { pose proof (durationArg_results d Hd) as Hr.
    destruct (durationArg d) as [[d1 dur]| |]; cbn in *; auto. }
  destruct (String.eqb (Val d) "dns_server").
  { eapply results_impl;
      [| apply dnsServerLoop_results; [exact Hd | now apply remaining_bound]].
    intros r [Ha Hz]. auto. }
  destruct (String.eqb (Val d) "ttl").
  { pose proof (durationArg_results d Hd) as Hr.
    destruct (durationArg d) as [[d1 dur]| |]; cbn in *; auto. }
  destruct (String.eqb_spec (Val d) "auto_cname") as [HV|_]; [| exact I].
  destruct (NextArg d) as [more d1] eqn:E.
  pose proof (NextArg_advances d d1 more Hd E) as [Ha _].
  destruct more; cbn [results fst snd]; [auto |].
  split; [exact Ha | right].
  destruct (NextArg_refused d d1 Hd E) as [HV' Hno].
  split; [cbn; congruence |].
  destruct (Val_token d) as (t & Ht & HT); [rewrite HV; discriminate |].
  exists (Z.to_nat (cursor d)), t. subst toks. repeat split; auto. congruence.
Qed.

(** The outer loop ends and keeps the invariant on [AutoCNAMEZone]. *)
Lemma blockLoop_results (toks : list Token) (fuel : nat) (d : Dispenser) (app : App) :
  onToken d -> tokens d = toks -> (remaining d < fuel)%nat ->
  zoneUnsetOrBare toks app ->
  results (zoneUnsetOrBare toks) (blockLoop fuel d app).
Proof.
  revert d app. induction fuel as [|fuel IH]; intros d app Hd Htoks Hfuel Hinv;
    [lia |].
  cbn [blockLoop].
  destruct (NextBlock 0 d) as [more d1] eqn:E.
  apply NextBlock_advances in E as [Ha Hlt]; [| exact Hd].
  destruct more; [| exact Hinv].
  assert (Ht1 : tokens d1 = toks) by (destruct Ha as [-> _]; exact Htoks).
  pose proof (directive_results toks d1 app (proj1 (proj2 Ha)) Ht1) as Hr.
  destruct (directive d1 app) as [[d2 app2]| |]; [| exact I | exact Hr].
  cbn [results fst snd] in Hr. destruct Hr as [Ha2 Hz].
  pose proof (advances_remaining_lt d d1 Ha (Hlt eq_refl)) as Hr1.
  pose proof (advances_remaining d1 d2 Ha2) as Hr2.
  apply IH.
  - apply Ha2.
  - destruct Ha2 as [-> _]. exact Ht1.
  - lia.
  - destruct Hz as [Hz|Hz]; [| now right].
    unfold zoneUnsetOrBare in *. now rewrite Hz.
Qed.

Lemma parseApp_results (toks : list Token) :
  results (zoneUnsetOrBare toks) (parseApp (NewDispenser toks)).
Proof.
  unfold parseApp, Next, NewDispenser, ntokens. cbn [cursor tokens].
  destruct (Z.ltb_spec (-1) (Z.of_nat (length toks) - 1)); [| exact I].
  apply blockLoop_results.
  - unfold onToken, ntokens. cbn. lia.
  - reflexivity.
  - apply remaining_bound. unfold onToken, ntokens. cbn. lia.
  - now left.
Qed.

Lemma has_arg_not_bare (toks : list Token) :
  auto_cname_has_arg toks -> ~ auto_cname_bare toks.
Proof.
  intros Hall (i & t & Hi & Ht & Hno). rewrite (Hall i t Hi Ht) in Hno.
  discriminate.
Qed.

(** C10: for every input, [parseApp] ends, and if it returns an app its
    [AutoCNAMEZone] is empty or the word [auto_cname]; it is empty when
    every [auto_cname] of the input is followed by an argument, and it is
    [auto_cname] only when some [auto_cname] has none.  At the directive
    itself: with an argument the cursor moves over it and the app is left
    as it was, without one the directive token is stored. *)
Theorem parseApp_auto_cname (toks : list Token) :
  match parseApp (NewDispenser toks) with
  | Ok app =>
      (AutoCNAMEZone app = "" \/ AutoCNAMEZone app = "auto_cname")
      /\ (auto_cname_has_arg toks -> AutoCNAMEZone app = "")
      /\ (AutoCNAMEZone app = "auto_cname" -> auto_cname_bare toks)
  | Failed _ => True
  | OutOfFuel => False
  end
  /\ (forall d app,
        onToken d -> Val d = "auto_cname" ->
        match NextArg d with
        | (true, d') =>
            directive d app = Ok (d', app) /\ cursor d' = cursor d + 1
        | (false, d') =>
            directive d app = Ok (d', set_AutoCNAMEZone "auto_cname" app)
            /\ cursor d' = cursor d
            /\ argFollows (tokens d) (Z.to_nat (cursor d)) = false
        end).
Proof.
  split; [| apply directive_auto_cname].
  pose proof (parseApp_results toks) as Hr.
  destruct (parseApp (NewDispenser toks)) as [app| |]; [| exact I | exact Hr].
  cbn [results] in Hr. destruct Hr as [Hz|[Hz Hbare]].
  - rewrite Hz. repeat split; auto. discriminate.
  - rewrite Hz. repeat split; auto.
    intros Hall. now destruct (has_arg_not_bare toks Hall).
Qed.

End Parser.

Lemma parseApp_auto_cname_witness :
  (AutoCNAMEZone <$> match @parseApp byLine sample_Durations (NewDispenser withZoneArg) with
                     | Ok app => Some app
                     | _ => None
                     end) = Some ""
  /\ @auto_cname_bare byLine withoutArg.
Proof.
  split.
  - destruct (@parseApp_auto_cname byLine sample_Durations withZoneArg) as [Hr _].
    destruct (@parseApp byLine sample_Durations (NewDispenser withZoneArg))
      as [app| |] eqn:E; [| vm_compute in E; discriminate E | destruct Hr].
    cbn. f_equal. apply Hr.
    intros i t Hi Ht.
    do 5 (destruct i as [|i];
          [vm_compute in Hi; injection Hi as <-;
           first [discriminate Ht | vm_compute; reflexivity] |]).
    discriminate Hi.
  - destruct (@parseApp_auto_cname byLine sample_Durations withoutArg) as [Hr _].
    destruct (@parseApp byLine sample_Durations (NewDispenser withoutArg))
      as [app| |] eqn:E; [| vm_compute in E; discriminate E | destruct Hr].
    apply Hr. vm_compute in E. injection E as <-. reflexivity.
Defined.

(** * Further properties *)

(** ** What the parser stores *)

(** The text under a cursor that is on a token is a token text. *)
Lemma Val_onToken (d : Dispenser) :
  onToken d -> tokenText (tokens d) (Val d).
Proof.
  intros Hd. unfold onToken, ntokens in Hd. unfold Val, ntokens.
  destruct (Z.ltb_spec (cursor d) 0); [lia |].
  destruct (Z.leb_spec (Z.of_nat (length (tokens d))) (cursor d)); [lia |].
  cbn [orb].
  destruct (lookup_lt_is_Some_2 (tokens d) (Z.to_nat (cursor d))) as [t Ht]; [lia |].
  rewrite Ht. exists t. split; [| reflexivity].
  eapply list_elem_of_lookup_2; eauto.
Qed.

Section ParserInvariant.
Context `{Layout} `{Durations}.
Variable toks : list Token.
Variable P : App -> Prop.

Hypothesis P_domains : forall zone names app,
  tokenText toks zone -> zone <> "" -> names <> [] ->
  Forall (fun n => n = "@" \/ tokenText toks n) names ->
  P app -> P (appendNames zone names app).
Hypothesis P_host : forall v app,
  tokenText toks v -> P app ->
  P (set_DNSServer (mkDNSServer v (User (DNSServer app)) (Password (DNSServer app))) app).
Hypothesis P_user : forall v app,
  tokenText toks v -> P app ->
  P (set_DNSServer (mkDNSServer (Host (DNSServer app)) v (Password (DNSServer app))) app).
Hypothesis P_password : forall v app,
  tokenText toks v -> P app ->
  P (set_DNSServer (mkDNSServer (Host (DNSServer app)) (User (DNSServer app)) v) app).
Hypothesis P_interval : forall v dur app,
  tokenText toks v -> ParseDuration v = inr dur -> P app ->
  P (set_CheckInterval dur app).
Hypothesis P_ttl : forall v dur app,
  tokenText toks v -> ParseDuration v = inr dur -> P app ->
  P (set_TTL dur app).
Hypothesis P_zone : forall app, P app -> P (set_AutoCNAMEZone "auto_cname" app).

Lemma Val_text (d : Dispenser) :
  onToken d -> tokens d = toks -> tokenText toks (Val d).
Proof. intros Hd <-. now apply Val_onToken. Qed.

Lemma RemainingArgs_loop_texts (fuel : nat) (d : Dispenser) (args : list string) :
  onToken d -> tokens d = toks -> (remaining d < fuel)%nat ->
  Forall (tokenText toks) args ->
  exists args' d', RemainingArgs_loop fuel d args = Some (args', d')
                   /\ advances d d' /\ Forall (tokenText toks) args'.
Proof.
  revert d args. induction fuel as [|fuel IH]; intros d args Hd Ht Hfuel Hargs;
    [lia |].
  cbn [RemainingArgs_loop].
  destruct (NextArg d) as [more d1] eqn:E.
  apply NextArg_advances in E as [Ha Hlt]; [| exact Hd].
  assert (Ht1 : tokens d1 = toks) by (destruct Ha as [-> _]; exact Ht).
  destruct more.
  - destruct (IH d1 (args ++ [Val d1])) as (args' & d' & -> & Ha' & Hargs').
    + apply Ha.
    + exact Ht1.
    + pose proof (advances_remaining_lt d d1 Ha (Hlt eq_refl)). lia.
    + apply Forall_app. split; [exact Hargs |].
      apply Forall_singleton. apply Val_text; [apply Ha | exact Ht1].
    + exists args', d'.
      split; [reflexivity | split; [eapply advances_trans; eauto | exact Hargs']].
  - exists args, d1. auto.
Qed.

Lemma domainsLoop_inv (fuel : nat) (lvl : Z) (d : Dispenser) (app : App) :
  onToken d -> tokens d = toks -> (remaining d < fuel)%nat -> P app ->
  results (fun r => advances d r.1 /\ P r.2) (domainsLoop fuel lvl d app).
Proof.
  revert d app. induction fuel as [|fuel IH]; intros d app Hd Ht Hfuel HP; [lia |].
  cbn [domainsLoop].
  destruct (NextBlock lvl d) as [more d1] eqn:E.
  apply NextBlock_advances in E as [Ha Hlt]; [| exact Hd].
  destruct more; [| cbn; auto].
  assert (Ht1 : tokens d1 = toks) by (destruct Ha as [-> _]; exact Ht).
  assert (Hon1 : onToken d1) by apply Ha.
  destruct (String.eqb_spec (Val d1) "") as [_|Hzone]; [exact I |].
  unfold RemainingArgs.
  destruct (RemainingArgs_loop_texts (loop_bound d1) d1 [] Hon1 Ht1)
    as (names & d2 & -> & Ha2 & Hnames);
    [now apply remaining_bound | constructor |].
  pose proof (advances_remaining_lt d d1 Ha (Hlt eq_refl)) as Hr1.
  pose proof (advances_remaining d1 d2 Ha2) as Hr2.
  eapply results_impl; [| apply IH].
  - intros [d' app'] [Ha' HP']. cbn [fst snd] in *. split; [| exact HP'].
    eapply advances_trans; [exact Ha |]. eapply advances_trans; eauto.
  - apply Ha2.
  - destruct Ha2 as [-> _]. exact Ht1.
  - lia.
  - apply P_domains; auto.
    + now apply Val_text.
    + destruct names; discriminate.
    + destruct names as [|n names].
      * apply Forall_singleton. now left.
      * eapply Forall_impl; [exact Hnames |]. intros n' Hn'. now right.
Qed.

Lemma dnsServerProperty_inv (d : Dispenser) (app : App) :
  onToken d -> tokens d = toks -> P app ->
  results (fun r => advances d r.1 /\ P r.2) (dnsServerProperty d app).
Proof.
  intros Hd Ht HP. unfold dnsServerProperty.
  destruct (String.eqb (Val d) "host");
    [| destruct (String.eqb (Val d) "user");
       [| destruct (String.eqb (Val d) "password"); [| exact I]]];
    (destruct (NextArg d) as [more d1] eqn:E;
     apply NextArg_advances in E as [Ha _]; [| exact Hd];
     destruct more; [| exact I];
     assert (Hv : tokenText toks (Val d1))
       by (apply Val_text; [apply Ha | destruct Ha as [-> _]; exact Ht]);
     split; [exact Ha | cbn [snd]; auto]).
Qed.

Lemma dnsServerLoop_inv (fuel : nat) (lvl : Z) (d : Dispenser) (app : App) :
  onToken d -> tokens d = toks -> (remaining d < fuel)%nat -> P app ->
  results (fun r => advances d r.1 /\ P r.2) (dnsServerLoop fuel lvl d app).
Proof.
  revert d app. induction fuel as [|fuel IH]; intros d app Hd Ht Hfuel HP; [lia |].
  cbn [dnsServerLoop].
  destruct (NextBlock lvl d) as [more d1] eqn:E.
  apply NextBlock_advances in E as [Ha Hlt]; [| exact Hd].
  destruct more; [| cbn; auto].
  assert (Ht1 : tokens d1 = toks) by (destruct Ha as [-> _]; exact Ht).
  pose proof (dnsServerProperty_inv d1 app (proj1 (proj2 Ha)) Ht1 HP) as Hp.
  destruct (dnsServerProperty d1 app) as [[d2 app2]| |]; [| exact I | exact Hp].
  cbn [results fst snd] in Hp. destruct Hp as [Ha2 HP2].
  pose proof (advances_remaining_lt d d1 Ha (Hlt eq_refl)) as Hr1.
  pose proof (advances_remaining d1 d2 Ha2) as Hr2.
  eapply results_impl; [| apply IH].
  - intros [d' app'] [Ha' HP']. cbn [fst snd] in *. split; [| exact HP'].
    eapply advances_trans; [exact Ha |]. eapply advances_trans; eauto.
  - apply Ha2.
  - destruct Ha2 as [-> _]. exact Ht1.
  - lia.
  - exact HP2.
Qed.

Lemma durationArg_inv (d : Dispenser) :
  onToken d -> tokens d = toks ->
  results (fun r => advances d r.1
                    /\ exists v, tokenText toks v /\ ParseDuration v = inr r.2)
          (durationArg d).
Proof.
  intros Hd Ht. unfold durationArg.
  destruct (NextArg d) as [more d1] eqn:E.
  apply NextArg_advances in E as [Ha _]; [| exact Hd].
  destruct more; [| exact I].
  destruct (ParseDuration (Val d1)) as [e|dur] eqn:EP; [exact I |].
  split; [exact Ha |]. exists (Val d1). split; [| exact EP].
  apply Val_text; [apply Ha | destruct Ha as [-> _]; exact Ht].
Qed.

Lemma directive_inv (d : Dispenser) (app : App) :
  onToken d -> tokens d = toks -> P app ->
  results (fun r => advances d r.1 /\ P r.2) (directive d app).
Proof.
  intros Hd Ht HP. unfold directive.
  destruct (String.eqb (Val d) "domains").
  { apply domainsLoop_inv; auto. now apply remaining_bound. }
  destruct (String.eqb (Val d) "check_interval").
  { pose proof (durationArg_inv d Hd Ht) as Hr.
    destruct (durationArg d) as [[d1 dur]| |]; cbn in *; auto.
    destruct Hr as [Ha (v & Hv & Hdur)]. split; [exact Ha | eauto]. }
  destruct (String.eqb (Val d) "dns_server").
  { apply dnsServerLoop_inv; auto. now apply remaining_bound. }
  destruct (String.eqb (Val d) "ttl").
  { pose proof (durationArg_inv d Hd Ht) as Hr.
    destruct (durationArg d) as [[d1 dur]| |]; cbn in *; auto.
    destruct Hr as [Ha (v & Hv & Hdur)]. split; [exact Ha | eauto]. }
  destruct (String.eqb_spec (Val d) "auto_cname") as [HV|_]; [| exact I].
  destruct (NextArg d) as [more d1] eqn:E.
  pose proof (NextArg_advances d d1 more Hd E) as [Ha _].
  destruct more; cbn [results fst snd]; [auto |].
  split; [exact Ha |].
  destruct (NextArg_refused d d1 Hd E) as [-> _]. rewrite HV. now apply P_zone.
Qed.

Lemma blockLoop_inv (fuel : nat) (d : Dispenser) (app : App) :
  onToken d -> tokens d = toks -> (remaining d < fuel)%nat -> P app ->
  results P (blockLoop fuel d app).
Proof.
  revert d app. induction fuel as [|fuel IH]; intros d app Hd Ht Hfuel HP; [lia |].
  cbn [blockLoop].
  destruct (NextBlock 0 d) as [more d1] eqn:E.
  apply NextBlock_advances in E as [Ha Hlt]; [| exact Hd].
  destruct more; [| exact HP].
  assert (Ht1 : tokens d1 = toks) by (destruct Ha as [-> _]; exact Ht).
  pose proof (directive_inv d1 app (proj1 (proj2 Ha)) Ht1 HP) as Hr.
  destruct (directive d1 app) as [[d2 app2]| |]; [| exact I | exact Hr].
  cbn [results fst snd] in Hr. destruct Hr as [Ha2 HP2].
  pose proof (advances_remaining_lt d d1 Ha (Hlt eq_refl)) as Hr1.
  pose proof (advances_remaining d1 d2 Ha2) as Hr2.
  apply IH; auto.
  - apply Ha2.
  - destruct Ha2 as [-> _]. exact Ht1.
  - lia.
Qed.

(** An induction principle for the parser: a property of the fresh app that
    every assignment of the parser keeps holds of the parsed app. *)
Lemma parseApp_invariant : P newApp -> results P (parseApp (NewDispenser toks)).
Proof.
  intros HP. unfold parseApp, Next, NewDispenser, ntokens. cbn [cursor tokens].
  destruct (Z.ltb_spec (-1) (Z.of_nat (length toks) - 1)); [| exact I].
  apply blockLoop_inv; auto.
  - unfold onToken, ntokens. cbn. lia.
  - apply remaining_bound. unfold onToken, ntokens. cbn. lia.
Qed.

End ParserInvariant.

Lemma appendNames_lookup (zone : string) (names : list string) (app : App)
    (m : gmap string (list string)) (z : string) (l : list string) :
  Domains (appendNames zone names app) = Some m -> m !! z = Some l ->
  (z = zone /\ l = map_get (Domains app) zone ++ names)
  \/ (z <> zone /\ exists m0, Domains app = Some m0 /\ m0 !! z = Some l).
Proof.
  unfold appendNames. cbn [Domains set_Domains]. intros [= <-] Hl.
  destruct (decide (z = zone)) as [->|Hne].
  - left. rewrite lookup_insert_eq in Hl. injection Hl as <-.
    split; [reflexivity |]. now destruct (Domains app).
  - right. split; [exact Hne |]. rewrite lookup_insert_ne in Hl by congruence.
    destruct (Domains app) as [m0|]; [eauto |].
    rewrite lookup_empty in Hl. discriminate.
Qed.

Section ParserFacts.
Context `{Layout} `{Durations}.

(** X1: whatever the input, a map returned by the parser has no zone with an
    empty name and no zone with an empty list of names (a zone written
    without names gets the apex [@]). *)
Theorem parseApp_domains_wellformed (toks : list Token) :
  match parseApp (NewDispenser toks) with
  | Ok app => domainsWellFormed app
  | Failed _ => True
  | OutOfFuel => False
  end.
Proof.
  apply (parseApp_invariant toks domainsWellFormed); try (intros; assumption).
  - intros zone names app _ Hzone Hnames _ IH m z l Hm Hl.
    destruct (appendNames_lookup zone names app m z l Hm Hl)
      as [[-> ->]|[_ (m0 & Hm0 & Hl0)]].
    + split; [exact Hzone |]. intros E. apply app_eq_nil in E as [_ E]. auto.
    + eapply IH; eauto.
  - intros m z l Hm. discriminate Hm.
Qed.

(** X2: whatever the input, every string and duration of the returned app
    was read from it: zones, server host, user and password are token
    texts, names are token texts or [@], and a duration that is set is what
    [ParseDuration] returned for a token. *)
Theorem parseApp_from_input (toks : list Token) :
  match parseApp (NewDispenser toks) with
  | Ok app => fromInput toks app
  | Failed _ => True
  | OutOfFuel => False
  end.
Proof.
  apply (parseApp_invariant toks (fromInput toks)).
  - intros zone names app Hzone _ _ Hnames (Hd & Hrest).
    split; [| exact Hrest].
    intros m z l Hm Hl.
    destruct (appendNames_lookup zone names app m z l Hm Hl)
      as [[-> ->]|[_ (m0 & Hm0 & Hl0)]].
    + split; [exact Hzone |]. apply Forall_app. split; [| exact Hnames].
      unfold map_get. destruct (Domains app) as [m0|] eqn:E; [| constructor].
      destruct (m0 !! zone) as [l0|] eqn:E0; [| constructor].
      exact (proj2 (Hd m0 zone l0 eq_refl E0)).
    + eapply Hd; eauto.
  - intros v app Hv (Hd & _ & Hu & Hp & Hrest).
    split; [exact Hd |]. split; [now right |]. auto.
  - intros v app Hv (Hd & Hh & _ & Hp & Hrest).
    split; [exact Hd |]. split; [exact Hh |]. split; [now right |]. auto.
  - intros v app Hv (Hd & Hh & Hu & _ & Hrest).
    split; [exact Hd |]. split; [exact Hh |]. split; [exact Hu |].
    split; [now right | exact Hrest].
  - intros v dur app Hv Hdur (Hd & Hh & Hu & Hp & _ & Ht).
    repeat (split; [assumption |]). split; [| exact Ht]. right. eauto.
  - intros v dur app Hv Hdur (Hd & Hh & Hu & Hp & Hi & _).
    repeat (split; [assumption |]). right. eauto.
  - intros app Hf. exact Hf.
  - split; [intros m z l Hm; discriminate Hm |].
    repeat split; now left.
Qed.

(** X3: the parser never sets the [AutoCNAME] flag and never attaches a
    context: whatever the input, the returned app has [AutoCNAME = false]
    and the zero context. *)
Theorem parseApp_leaves_flag_unset (toks : list Token) :
  match parseApp (NewDispenser toks) with
  | Ok app => AutoCNAME app = false /\ ctx app = zeroContext
  | Failed _ => True
  | OutOfFuel => False
  end.
Proof.
  apply (parseApp_invariant toks
           (fun app => AutoCNAME app = false /\ ctx app = zeroContext));
    try (intros; assumption).
  split; reflexivity.
Qed.

End ParserFacts.

(** The parser on a full block. *)
Lemma parseApp_fullBlock :
  @parseApp byLine sample_Durations (NewDispenser fullBlock)
  = Ok {| DNSServer := {| Host := "dns1"; User := "admin"; Password := "secret" |};
          Domains := Some {[ "example.com" := ["www"; "api"];
                             "example.org" := ["@"] ]};
          CheckInterval := 5 * Second;
          TTL := 9 * Second;
          AutoCNAME := false;
          AutoCNAMEZone := "";
          ctx := zeroContext |}.
Proof. vm_compute. reflexivity. Qed.

(** ** More on provisioning and start-up *)

(** X4: when [Provision] returns nil, the stored interval is at least one
    second, the context is the one passed in, and the domains, the server
    settings, the TTL, the flag and the zone are as they were. *)
Theorem Provision_success_interval (c : Context) (a : App) :
  (Provision c a).2 = None ->
  Second <= CheckInterval (Provision c a).1
  /\ ctx (Provision c a).1 = c
  /\ Domains (Provision c a).1 = Domains a
  /\ DNSServer (Provision c a).1 = DNSServer a
  /\ TTL (Provision c a).1 = TTL a
  /\ AutoCNAME (Provision c a).1 = AutoCNAME a
  /\ AutoCNAMEZone (Provision c a).1 = AutoCNAMEZone a.
Proof.
  rewrite Provision_cases.
  destruct (Z.eqb_spec (CheckInterval a) 0) as [E|N].
  - intros _. cbn. repeat split. discriminate.
  - destruct (Z.ltb_spec (CheckInterval a) Second) as [Hlt|Hge];
      [discriminate |].
    intros _. cbn. repeat split. exact Hge.
Qed.

Lemma Provision_success_interval_witness :
  Second <= CheckInterval (Provision zeroContext newApp).1.
Proof.
  apply (Provision_success_interval zeroContext newApp). reflexivity.
Defined.

(** X5: provisioning is idempotent: provisioning the provisioned app again
    with the same context gives the same app and the same result. *)
Theorem Provision_idempotent (c : Context) (a : App) :
  Provision c (Provision c a).1 = Provision c a.
Proof.
  rewrite (Provision_cases c a).
  destruct (Z.eqb_spec (CheckInterval a) 0) as [E|N].
  - cbn [fst]. reflexivity.
  - destruct (Z.ltb_spec (CheckInterval a) Second) as [Hlt|Hge]; cbn [fst];
      rewrite Provision_cases; cbn [CheckInterval set_ctx];
      destruct (Z.eqb_spec (CheckInterval a) 0) as [E'|_]; try contradiction.
    + destruct (Z.ltb_spec (CheckInterval a) Second); [reflexivity | lia].
    + destruct (Z.ltb_spec (CheckInterval a) Second); [lia | reflexivity].
Qed.

Section StartUp.
Context `{JSON}.


Lemma appendLabels_nil_inv (ls : list string) (a : App) :
  DNSServer (appendLabels ls a) = DNSServer a
  /\ CheckInterval (appendLabels ls a) = CheckInterval a
  /\ TTL (appendLabels ls a) = TTL a
  /\ AutoCNAME (appendLabels ls a) = AutoCNAME a.
Proof. destruct ls; repeat split. Qed.

(** X7: whether it ends with an error or not, discovery only appends to the
    list of the auto-discovery zone: the names that were there stay in
    front, the lists of the other zones and all other settings are as they
    were, and when nothing is appended the app is untouched (a nil map
    stays nil). *)
Theorem discovery_only_appends (order : list (string * Server)) (a : App) :
  exists added,
    (forall z,
        map_get (Domains (addReverseProxyCNAMEs order a).1) z
        = map_get (Domains a) z
          ++ (if decide (z = AutoCNAMEZone a) then added else []))
    /\ (added = [] -> (addReverseProxyCNAMEs order a).1 = a)
    /\ DNSServer (addReverseProxyCNAMEs order a).1 = DNSServer a
    /\ CheckInterval (addReverseProxyCNAMEs order a).1 = CheckInterval a
    /\ TTL (addReverseProxyCNAMEs order a).1 = TTL a
    /\ AutoCNAME (addReverseProxyCNAMEs order a).1 = AutoCNAME a
    /\ AutoCNAMEZone (addReverseProxyCNAMEs order a).1 = AutoCNAMEZone a
    /\ ctx (addReverseProxyCNAMEs order a).1 = ctx a.
Proof.
  destruct (addReverseProxyCNAMEs_appends order a) as [ls ->].
  exists ls. split; [intros z; apply map_get_appendLabels |].
  split; [now intros -> |].
  destruct (appendLabels_nil_inv ls a) as (-> & -> & -> & ->).
  rewrite appendLabels_zone, appendLabels_ctx. repeat split.
Qed.

Lemma addReverseProxyCNAMEs_ok_iff (order : list (string * Server)) (a : App) :
  servers_order a order ->
  (addReverseProxyCNAMEs order a).2 = None
  <-> (exists httpApp, ctxHTTPApp (ctx a) = inr httpApp) /\ ~ snapshotMalformed a.
Proof.
  intros Hord. split.
  - intros Hnone. destruct (addReverseProxyCNAMEs_succeeds order a Hnone)
      as (Hok & Hctx & _).
    split; [exact Hctx |]. intros Hbad.
    destruct (addReverseProxyCNAMEs_malformed order a Hord Hbad) as [e He].
    congruence.
  - intros [[httpApp Hctx] Hok].
    unfold addReverseProxyCNAMEs, servers_order, snapshotMalformed, range_of in *.
    rewrite Hctx in *. rewrite rangeServers_decoded; [reflexivity |].
    intros Hbad. apply Hok.
    apply (malformedIn_Permutation order.*2); [now rewrite Hord | exact Hbad].
Qed.

(** X8: discovery returns nil exactly when the context yields the HTTP app
    and every handler of every route of every server decodes. *)
Theorem discovery_succeeds_iff (order : list (string * Server)) (a : App) :
  servers_order a order ->
  (addReverseProxyCNAMEs order a).2 = None
  <-> (exists httpApp, ctxHTTPApp (ctx a) = inr httpApp) /\ ~ snapshotMalformed a.
Proof. apply addReverseProxyCNAMEs_ok_iff. Qed.

(** X9: the order in which Go visits the servers only permutes the names:
    when discovery succeeds for one visiting order it succeeds for every
    other, and each zone then holds the same names the same number of
    times. *)
Theorem discovery_order_permutes (order1 order2 : list (string * Server)) (a : App) :
  servers_order a order1 -> servers_order a order2 ->
  (addReverseProxyCNAMEs order1 a).2 = None ->
  (addReverseProxyCNAMEs order2 a).2 = None
  /\ forall z,
       map_get (Domains (addReverseProxyCNAMEs order1 a).1) z
       ≡ₚ map_get (Domains (addReverseProxyCNAMEs order2 a).1) z.
Proof.
  intros Ho1 Ho2 Hnone.
  pose proof (proj1 (addReverseProxyCNAMEs_ok_iff order1 a Ho1) Hnone) as Hgood.
  pose proof (proj2 (addReverseProxyCNAMEs_ok_iff order2 a Ho2) Hgood) as Hnone2.
  split; [exact Hnone2 |]. intros z.
  destruct (addReverseProxyCNAMEs_succeeds order1 a Hnone) as (_ & [h Hctx] & ->).
  destruct (addReverseProxyCNAMEs_succeeds order2 a Hnone2) as (_ & _ & ->).
  rewrite !map_get_appendLabels.
  destruct (decide _); [| reflexivity].
  apply Permutation_app_head, discovered_Permutation.
  unfold servers_order, range_of in Ho1, Ho2. rewrite Hctx in Ho1, Ho2.
  now rewrite Ho1, Ho2.
Qed.

(** X10: within one route, the hosts of the route are appended once for
    each reverse-proxy handler: when all handlers of the route decode and
    [k] of them are reverse-proxy handlers, the handler loop appends the
    labels of the route's hosts [k] times over. *)
Theorem rangeHandlers_once_per_proxy (route : Route) (raws : list RawMessage)
    (a : App) :
  (forall raw, raw ∈ raws -> ~ malformed raw) ->
  rangeHandlers route raws a
  = (appendLabels
       (concat (replicate (proxyCount raws) (routeLabels (AutoCNAMEZone a) route)))
       a, None).
Proof.
  intros Hok. rewrite (rangeHandlers_decoded route raws a Hok). do 2 f_equal.
  clear Hok. unfold proxyCount.
  induction raws as [|raw raws IH]; [reflexivity |].
  cbn [flat_map List.filter]. rewrite IH. unfold handlerLabels at 1.
  destruct (Unmarshal raw) as [e|h]; [reflexivity |].
  destruct (isReverseProxy h); reflexivity.
Qed.

End StartUp.


Lemma discovery_succeeds_iff_witness :
  (@addReverseProxyCNAMEs sample_JSON
     (oneServer [proxyRoute ["api.example.com"]])
     (discoveryApp "example.com" [proxyRoute ["api.example.com"]])).2 = None
  <-> (exists httpApp,
          ctxHTTPApp (ctx (discoveryApp "example.com"
                             [proxyRoute ["api.example.com"]])) = inr httpApp)
      /\ ~ @snapshotMalformed sample_JSON
             (discoveryApp "example.com" [proxyRoute ["api.example.com"]]).
Proof.
  apply (@discovery_succeeds_iff sample_JSON).
  apply servers_order_discoveryApp.
Defined.

Lemma discovery_order_permutes_witness :
  (@addReverseProxyCNAMEs sample_JSON (reverse (map_to_list twoServers))
     twoServerApp).2 = None.
Proof.
  apply (@discovery_order_permutes sample_JSON
           (map_to_list twoServers) (reverse (map_to_list twoServers)) twoServerApp).
  - apply Permutation_refl.
  - apply reverse_Permutation.
  - vm_compute. reflexivity.
Defined.

Lemma rangeHandlers_once_per_proxy_witness :
  @rangeHandlers sample_JSON
    {| MatcherSets := [[MatchHost ["api.example.com"]]]; HandlersRaw := [] |}
    ["R"; "F"; "R"] (set_AutoCNAMEZone "example.com" newApp)
  = (set_AutoCNAMEZone "example.com"
       (appWithDomains {[ "example.com" := ["api"; "api"] ]}), None).
Proof.
  rewrite (@rangeHandlers_once_per_proxy sample_JSON).
  - vm_compute. reflexivity.
  - intros raw Hraw [err Herr].
    repeat (apply elem_of_cons in Hraw as [->|Hraw]; [vm_compute in Herr; discriminate |]).
    now apply elem_of_nil in Hraw.
Defined.

(** ** More on the pass *)

Lemma targets_of_empty_lists (a : App) (order : list (string * list string)) :
  domains_order a order ->
  (forall z, map_get (allDomains a) z = []) ->
  targets order = [].
Proof.
  unfold domains_order, range_of. intros Hp Hempty.
  assert (Hall : forall zd, zd ∈ order -> zd.2 = []).
  { intros [z l] Hin. rewrite Hp in Hin. apply elem_of_map_to_list in Hin.
    specialize (Hempty z). unfold map_get in Hempty.
    destruct (allDomains a) as [m|]; cbn in Hin.
    - now rewrite Hin in Hempty.
    - rewrite lookup_empty in Hin. discriminate. }
  clear Hp. unfold targets. induction order as [|zd order IH]; [reflexivity |].
  cbn [flat_map]. rewrite (Hall zd) by apply list_elem_of_here.
  cbn [map app]. apply IH. intros zd' Hin. apply Hall.
  now apply list_elem_of_further.
Qed.

(** X11: a pass over a DomainMap without names (a nil map, an empty map, or
    zones whose lists are all empty) contacts nobody: the log holds the
    opening and the closing entry only and the remote side is untouched. *)
Theorem updateDNS_nothing_to_do {W : Type} `{SSH W} (a : App)
    (order : list (string * list string)) (w : W) :
  domains_order a order ->
  (forall z, map_get (allDomains a) z = []) ->
  updateDNS order a w
  = ([mkLog DebugLevel "beginning DNS update" [];
      mkLog InfoLevel "finished updating DNS" []], w).
Proof.
  intros Ho Hempty. rewrite updateDNS_passOver.
  now rewrite (targets_of_empty_lists a order Ho Hempty).
Qed.

Lemma updateDNS_nothing_to_do_witness :
  updateDNS [] newApp (fresh_remote secondFails)
  = ([mkLog DebugLevel "beginning DNS update" [];
      mkLog InfoLevel "finished updating DNS" []], fresh_remote secondFails).
Proof.
  apply (updateDNS_nothing_to_do newApp [] (fresh_remote secondFails)).
  - unfold domains_order, range_of. cbn. now rewrite map_to_list_empty.
  - reflexivity.
Defined.

Lemma passOver_entries {W : Type} `{SSH W} (a : App) (ts : list (string * string))
    (log : list LogEntry) (w : W) :
  exists entries,
    (passOver a ts (log, w)).1 = log ++ entries
    /\ length entries = length ts
    /\ Forall target_entry entries.
Proof.
  revert log w. induction ts as [|[z d] ts IH]; intros log w.
  - exists []. cbn. now rewrite app_nil_r.
  - unfold passOver. cbn [fold_left fst snd].
    assert (He : exists e w', updateOne a z d (log, w) = (log ++ [e], w')
                              /\ target_entry e).
    { unfold updateOne. destruct (updateCNAME a z d w) as [[err|] w'].
      - eexists _, w'. split; [reflexivity |]. right. cbn. eauto.
      - eexists _, w'. split; [reflexivity |]. left. cbn. eauto. }
    destruct He as (e & w' & -> & He).
    fold (passOver a ts (log ++ [e], w')).
    destruct (IH (log ++ [e]) w') as (entries & -> & Hlen & Hall).
    exists (e :: entries). rewrite <- app_assoc. cbn.
    repeat split; [congruence | now constructor].
Qed.

(** X12: the log of a pass is the opening debug entry, then one entry for
    each target, then the closing info entry; the entry of a target is
    either the info entry [updated CNAME record] without error field or the
    error entry [failed updating CNAME record] with one. *)
Theorem updateDNS_log_shape {W : Type} `{SSH W} (a : App)
    (order : list (string * list string)) (w : W) :
  exists entries,
    (updateDNS order a w).1
    = mkLog DebugLevel "beginning DNS update" [] :: entries
      ++ [mkLog InfoLevel "finished updating DNS" []]
    /\ length entries = length (targets order)
    /\ Forall target_entry entries.
Proof.
  rewrite updateDNS_passOver. cbn [fst].
  destruct (passOver_entries a (targets order)
              [mkLog DebugLevel "beginning DNS update" []] w)
    as (entries & -> & Hlen & Hall).
  exists entries. auto.
Qed.

(** X13: every connection of a pass is dialled over [tcp] to port 22 of the
    configured host, with the configured user and password and with a host
    key callback that accepts any key. *)
Theorem updateDNS_connection_parameters (a : App)
    (order : list (string * list string)) (s : list Transcript) :
  Forall (fun d => d = ("tcp", Host (DNSServer a) +:+ ":22",
                        {| cfgUser := User (DNSServer a);
                           cfgAuth := [AuthPassword (Password (DNSServer a))];
                           cfgHostKeyCallback := InsecureIgnoreHostKey |}))
         (dialed (updateDNS order a (fresh_remote s)).2).
Proof.
  rewrite updateDNS_passOver. cbn [snd]. rewrite scripted_passOver_dials.
  cbn [fresh_remote dialed app]. apply Forall_map, Forall_true. reflexivity.
Qed.

(** X14: an update sends its command only over an established session: a
    host that refuses the connection or the session is sent no command, a
    host that accepts both is sent exactly the one command of the update. *)
Theorem updateCNAME_sends_one_command (a : App) (zone domain : string) (w : Remote) :
  commands (updateCNAME a zone domain w).2
  = commands w
    ++ match script w with
       | [] | DialFails _ :: _ | SessionFails _ :: _ => []
       | Runs _ _ :: _ => [cnameFullCmd zone domain]
       end.
Proof.
  unfold updateCNAME. cbn. unfold remote_dial.
  destruct (script w) as [|[e|e|output [e|]] rest] eqn:Es; cbn;
    try (now rewrite app_nil_r);
    unfold remote_session, remote_run; cbn; rewrite ?Es; cbn;
    try (now rewrite app_nil_r); try reflexivity.
  destruct (GoStrings.Contains output "Error"); reflexivity.
Qed.

(** The tracking host. *)
Lemma filter_ne_singleton {A : Type} `{EqDecision A} (x : A) :
  filter (fun y => y <> x) [x] = [].
Proof.
  rewrite filter_cons. destruct (decide (x <> x)); [contradiction | reflexivity].
Qed.

Lemma tracked_updateCNAME_quiet (a : App) (zone domain : string) (w : Tracked) :
  quiet w -> quiet (@updateCNAME Tracked tracked_SSH a zone domain w).2.
Proof.
  destruct w as [sc n oc os orph]. unfold quiet. cbn [openClients openSessions orphaned].
  intros (-> & -> & ->). unfold updateCNAME.
  cbn [Dial NewSession CombinedOutput SessionClose ClientClose tracked_SSH].
  unfold tracked_dial. cbn [tScript nextHandle openClients openSessions orphaned].
  destruct sc as [|[e|e|output err] rest]; cbn [fst snd openClients openSessions orphaned];
    try (repeat split; reflexivity).
  - unfold tracked_session, tracked_client_close.
    cbn [tScript nextHandle openClients openSessions orphaned snd].
    rewrite filter_ne_singleton. repeat split.
  - unfold tracked_session, tracked_run.
    cbn [tScript nextHandle openClients openSessions orphaned].
    assert (Hq : forall sc', quiet (tracked_client_close n
                  (tracked_session_close (S n, n)
                     (mkTracked sc' (S (S n)) [n] [(S n, n)] false)))).
    { intros sc'. unfold tracked_client_close, tracked_session_close, quiet.
      cbn [tScript nextHandle openClients openSessions orphaned].
      rewrite !filter_ne_singleton. repeat split. }
    destruct err as [e|]; [apply Hq |].
    destruct (GoStrings.Contains output "Error"); apply Hq.
Qed.

Lemma tracked_passOver_quiet (a : App) (ts : list (string * string))
    (log : list LogEntry) (w : Tracked) :
  quiet w -> quiet (@passOver Tracked tracked_SSH a ts (log, w)).2.
Proof.
  revert log w. induction ts as [|[z d] ts IH]; intros log w Hq; [exact Hq |].
  unfold passOver. cbn [fold_left fst snd].
  destruct (@updateOne_entry Tracked tracked_SSH a z d log w) as [e [-> _]].
  apply IH. now apply tracked_updateCNAME_quiet.
Qed.

(** X15: a pass releases what it acquires: on a host that keeps track of
    its open connections and sessions, a pass that starts with nothing open
    ends with nothing open, whatever the host answers, and no connection is
    closed while a session on it is still open. *)
Theorem updateDNS_releases (a : App) (order : list (string * list string))
    (w : Tracked) :
  quiet w -> quiet (@updateDNS Tracked tracked_SSH order a w).2.
Proof.
  intros Hq. rewrite (@updateDNS_passOver Tracked tracked_SSH). cbn [snd].
  now apply tracked_passOver_quiet.
Qed.

Lemma updateDNS_releases_witness :
  quiet (@updateDNS Tracked tracked_SSH threeTargets newApp
           (mkTracked (SessionFails "no channel" :: secondFails) 0 [] [] false)).2.
Proof.
  apply (updateDNS_releases newApp threeTargets).
  repeat split.
Defined.

(** ** A host without memory *)

Section Answering.
Variable respond : string -> string * error.
Variable a : App.

(** Whether the update of a target succeeds on the answering host. *)
Let ok (t : string * string) : bool :=
  succeeded (Runs (respond (cnameFullCmd t.1 t.2)).1 (respond (cnameFullCmd t.1 t.2)).2).





End Answering.


(** ** The background loop *)

Section Loop.
Context {W : Type} `{SSH W}.
Variable pick : nat -> list (string * list string).
Variable a : App.

Lemma attempts_app (l1 l2 : list LogEntry) :
  attempts (l1 ++ l2) = attempts l1 ++ attempts l2.
Proof. unfold attempts. apply omap_app. Qed.

Lemma checkerSelect_runs (events : list Event) (pass : nat)
    (st : list LogEntry * W) :
  attempts (checkerSelect pick a events pass st).1.1
  = attempts st.1
    ++ concat (map (fun i => targets (pick i))
                   (seq pass (length (beforeDone events))))
  /\ ((checkerSelect pick a events pass st).2 = Returned <-> Done ∈ events)
  /\ (checkerSelect pick a events pass st).2 <> Panicked.
Proof.
  revert pass st. induction events as [|[|] events IH]; intros pass st.
  - cbn. rewrite app_nil_r. repeat split; try discriminate.
    intros Hin. now apply elem_of_nil in Hin.
  - cbn [checkerSelect beforeDone length seq map concat].
    destruct (updateDNS (pick pass) a st.2) as [log w] eqn:E.
    destruct (IH (S pass) (st.1 ++ log, w)) as (IHa & IHr & IHp).
    split; [| split].
    + rewrite IHa. cbn [fst]. rewrite attempts_app, <- app_assoc. do 2 f_equal.
      change log with (log, w).1. rewrite <- E. apply updateDNS_attempts.
    + rewrite IHr. split; [apply list_elem_of_further |].
      intros Hin. apply elem_of_cons in Hin as [Hd|Hin]; [discriminate | exact Hin].
    + exact IHp.
  - cbn. rewrite app_nil_r. repeat split; try discriminate.
    intros _. apply list_elem_of_here.
Qed.

Lemma checkerSelect_stops (evs1 evs2 : list Event) (pass : nat)
    (st : list LogEntry * W) :
  checkerSelect pick a (evs1 ++ Done :: evs2) pass st
  = checkerSelect pick a (evs1 ++ [Done]) pass st.
Proof.
  revert pass st. induction evs1 as [|[|] evs1 IH]; intros pass st;
    [reflexivity | | reflexivity].
  cbn [app checkerSelect]. destruct (updateDNS (pick pass) a st.2). apply IH.
Qed.

(** X17: with a positive interval the loop makes one pass at once and one
    more for each tick received before the context is done; it returns
    exactly when the context is done, and what arrives after that is never
    looked at. *)
Theorem checkerLoop_passes (events : list Event) (w : W) :
  0 < CheckInterval a ->
  attempts (checkerLoop pick a events w).1.1
  = concat (map (fun i => targets (pick i))
                (seq 0 (S (length (beforeDone events)))))
  /\ ((checkerLoop pick a events w).2 = Returned <-> Done ∈ events)
  /\ (forall evs1 evs2,
        events = evs1 ++ Done :: evs2 ->
        checkerLoop pick a events w = checkerLoop pick a (evs1 ++ [Done]) w).
Proof.
  intros Hpos. unfold checkerLoop.
  destruct (Z.leb_spec (CheckInterval a) 0) as [Hle|_]; [lia |].
  destruct (checkerSelect_runs events 1 (updateDNS (pick 0%nat) a w))
    as (Ha & Hr & _).
  split; [| split].
  - rewrite Ha, updateDNS_attempts. reflexivity.
  - exact Hr.
  - intros evs1 evs2 ->. apply checkerSelect_stops.
Qed.

(** X18: the loop panics exactly when the interval is not positive, and then
    before any update is made; an app that [Provision] accepted never makes
    it panic. *)
Theorem checkerLoop_ticker (events : list Event) (w : W) :
  ((checkerLoop pick a events w).2 = Panicked <-> CheckInterval a <= 0)
  /\ (CheckInterval a <= 0 -> checkerLoop pick a events w = (([], w), Panicked))
  /\ (forall c a0, Provision c a0 = (a, None) ->
        (checkerLoop pick a events w).2 <> Panicked).
Proof.
  assert (Hiff : (checkerLoop pick a events w).2 = Panicked <-> CheckInterval a <= 0).
  { unfold checkerLoop.
    destruct (Z.leb_spec (CheckInterval a) 0) as [Hle|Hgt].
    - split; [intros _; exact Hle | reflexivity].
    - destruct (checkerSelect_runs events 1 (updateDNS (pick 0%nat) a w))
        as (_ & _ & Hp).
      split; [intros E; contradiction | lia]. }
  split; [exact Hiff | split].
  - intros Hle. unfold checkerLoop.
    destruct (Z.leb_spec (CheckInterval a) 0); [reflexivity | lia].
  - intros c a0 Hprov Hpanic. apply Hiff in Hpanic.
    assert (HS : Second = 1000000000) by reflexivity.
    assert (HD : defaultCheckInterval = 1800000000000) by reflexivity.
    rewrite Provision_cases in Hprov.
    destruct (Z.eqb_spec (CheckInterval a0) 0) as [E|N].
    + injection Hprov as <-. cbn in Hpanic. lia.
    + destruct (Z.ltb_spec (CheckInterval a0) Second) as [Hlt|Hge];
        [discriminate |].
      injection Hprov as <-. cbn in Hpanic. lia.
Qed.

End Loop.

Lemma checkerLoop_passes_witness :
  attempts (checkerLoop (fun _ => threeTargets)
              (set_CheckInterval (30 * Minute) newApp)
              [Tick; Done; Tick] (fresh_remote [])).1.1
  = targets threeTargets ++ targets threeTargets.
Proof.
  rewrite (proj1 (checkerLoop_passes (fun _ => threeTargets)
                    (set_CheckInterval (30 * Minute) newApp)
                    [Tick; Done; Tick] (fresh_remote []) eq_refl)).
  reflexivity.
Defined.

Lemma checkerLoop_ticker_witness :
  (checkerLoop (fun _ => threeTargets) (Provision zeroContext newApp).1
     [Tick] (fresh_remote [])).2 <> Panicked.
Proof.
  apply (proj2 (proj2 (checkerLoop_ticker (fun _ => threeTargets)
                         (Provision zeroContext newApp).1 [Tick] (fresh_remote [])))
           zeroContext newApp).
  reflexivity.
Defined.

(** ** From discovery to the pass *)



Section EndToEnd.
Context `{JSON} {W : Type} `{SSH W}.



End EndToEnd.

